(** * IntelHeaders [include/log.h]: the logging facility, embedded and verified

    The header defines a log handle (a sink callback with its context, two
    filter masks and a spinlock), the raw write [LOG_Write], the filtered
    macro [LOG_WRITE] and the five decorated macros [LOG_ERROR] ...
    [LOG_TRACE], all expansions of [__LOG_PREFIX_BY_PRIORITY].

    The embedding is a state-and-error monad over a machine made of
    - a memory of handles, addressed by pointers that may be [NULL];
    - the state of the integrator's sink (the header never looks into it);
    - the trace of what the header asked of its environment: every call of
      the sink and every acquire and release of a spinlock.

    A dereference of a bad pointer or a call through a null function pointer
    is undefined behaviour in C; here it is the outcome [Fault].  A busy-wait
    on a lock that nobody will release is the outcome [Hang]. *)

From Stdlib Require Import ZArith List Lia Ascii.
From stdpp Require Import base option list gmap strings.

Local Open Scope Z_scope.

(** ** Data model *)

(** Modelled from the spec: [BOOLEAN], [TRUE] and [FALSE] are declared in
    ntdatatypes.h, which is not among the sources; the spec speaks of a
    success indicator with the two values success and failure. *)
Definition BOOLEAN := bool.
Definition TRUE : BOOLEAN := true.
Definition FALSE : BOOLEAN := false.

(** Addresses; a pointer is [NULL] or an address. *)
Definition loc := N.
Definition NULL {A : Type} : option A := None.

(** Modelled from the spec: [PVOID] of ntdatatypes.h (not among the
    sources), the type of the context: an opaque value that may be null and
    is handed to the sink as it is. *)
Definition PVOID := option loc.

(** One variadic argument; the argument list [__VA_LIST__] that
    [__VA_START__] builds from the arguments after the format is the list
    of them. *)
Inductive va_arg :=
| VaInt (z : Z)
| VaStr (s : string)
| VaPtr (p : PVOID).

Definition VA_LIST := list va_arg.

(** Modelled from the spec: [UINT32_MAX] comes from ntdatatypes.h, which is
    not among the sources; the spec calls the two [ALL] values "the full bit
    range" of a 32-bit mask. *)
Definition UINT32_MAX : Z := Z.ones 32.

(** [enum _LOG_PRIORITY]: the values are masks, combined with [|] and
    tested with [&]. *)
Definition LOG_PRIORITY := Z.
Definition LOG_PRIORITY_ERROR : LOG_PRIORITY := Z.shiftl 1 0.
Definition LOG_PRIORITY_WARN : LOG_PRIORITY := Z.shiftl 1 1.
Definition LOG_PRIORITY_INFO : LOG_PRIORITY := Z.shiftl 1 2.
Definition LOG_PRIORITY_DEBUG : LOG_PRIORITY := Z.shiftl 1 3.
Definition LOG_PRIORITY_TRACE : LOG_PRIORITY := Z.shiftl 1 4.
Definition LOG_PRIORITY_ALL : LOG_PRIORITY := UINT32_MAX.

(** [enum _LOG_MODULE]. *)
Definition LOG_MODULE := Z.
Definition LOG_MODULE_PAGING : LOG_MODULE := Z.shiftl 1 0.
Definition LOG_MODULE_ALL : LOG_MODULE := UINT32_MAX.

(** Modelled from the spec: [SPINLOCK] is declared in utils.h, which is not
    among the sources.  The guard is a value owned by the handle;
    [LOG_InitHandle] stores the integer 0 in it for "unlocked". *)
Definition SPINLOCK := Z.

(** The [PriorityName] token handed to [__LOG_PREFIX_BY_PRIORITY]: it is
    pasted after [LOG_PRIORITY_] and stringified into the prefix. *)
Inductive PriorityName := ERROR | WARN | INFO | DEBUG | TRACE.

(** [LOG_PRIORITY_##PriorityName] *)
Definition paste_LOG_PRIORITY (n : PriorityName) : LOG_PRIORITY :=
  match n with
  | ERROR => LOG_PRIORITY_ERROR
  | WARN => LOG_PRIORITY_WARN
  | INFO => LOG_PRIORITY_INFO
  | DEBUG => LOG_PRIORITY_DEBUG
  | TRACE => LOG_PRIORITY_TRACE
  end.

(** [#PriorityName] *)
Definition stringify (n : PriorityName) : string :=
  match n with
  | ERROR => "ERROR"
  | WARN => "WARN"
  | INFO => "INFO"
  | DEBUG => "DEBUG"
  | TRACE => "TRACE"
  end.

Section Log.

(** The state of whatever the sink writes to (screen, serial port, ring
    buffer): the header is parametric in it. *)
Context {SinkSt : Type}.

(** What [LOG_WRITE_PFN] points to: given the context, the format and the
    argument list, the sink reports success or failure and moves its own
    state.  The format it receives is never null: [LOG_Write] checks it.
    A sink works on its own state only: it does not write to the handles
    and does not log through them (the contract of the callback forbids
    re-entry). *)
Definition sink_fn : Type :=
  PVOID -> string -> VA_LIST -> SinkSt -> BOOLEAN * SinkSt.

(** [LOG_WRITE_PFN]: a function pointer, possibly [NULL]. *)
Definition LOG_WRITE_PFN : Type := option sink_fn.

(** [struct _LOG_HANDLE] *)
Record LOG_HANDLE := mkLOG_HANDLE {
  pfnLogWrite : LOG_WRITE_PFN;
  pvContext : PVOID;
  ePriorityFilterMask : LOG_PRIORITY;
  eModulesFilterMask : LOG_MODULE;
  tLock : SPINLOCK
}.

Definition PLOG_HANDLE := option loc.

(** Field assignments [ptLog->field = v]. *)
Definition set_pfnLogWrite (v : LOG_WRITE_PFN) (h : LOG_HANDLE) : LOG_HANDLE :=
  mkLOG_HANDLE v (pvContext h) (ePriorityFilterMask h) (eModulesFilterMask h) (tLock h).
Definition set_pvContext (v : PVOID) (h : LOG_HANDLE) : LOG_HANDLE :=
  mkLOG_HANDLE (pfnLogWrite h) v (ePriorityFilterMask h) (eModulesFilterMask h) (tLock h).
Definition set_ePriorityFilterMask (v : LOG_PRIORITY) (h : LOG_HANDLE) : LOG_HANDLE :=
  mkLOG_HANDLE (pfnLogWrite h) (pvContext h) v (eModulesFilterMask h) (tLock h).
Definition set_eModulesFilterMask (v : LOG_MODULE) (h : LOG_HANDLE) : LOG_HANDLE :=
  mkLOG_HANDLE (pfnLogWrite h) (pvContext h) (ePriorityFilterMask h) v (tLock h).
Definition set_tLock (v : SPINLOCK) (h : LOG_HANDLE) : LOG_HANDLE :=
  mkLOG_HANDLE (pfnLogWrite h) (pvContext h) (ePriorityFilterMask h) (eModulesFilterMask h) v.

(** ** The machine *)

(** What the header asks of its environment. *)
Inductive event :=
| EvAcquire (l : loc)
| EvRelease (l : loc)
| EvSink (ctx : PVOID) (fmt : string) (args : VA_LIST) (ret : BOOLEAN).

Record machine := mkMachine {
  mem : gmap loc LOG_HANDLE;
  sink : SinkSt;
  trace : list event
}.

Inductive fault := BadPointer | NullCall.

Inductive outcome (A : Type) :=
| Done (a : A) (m : machine)
| Fault (f : fault)
| Hang.
Arguments Done {A} a m.
Arguments Fault {A} f.
Arguments Hang {A}.

Definition M (A : Type) : Type := machine -> outcome A.

Definition ret {A} (a : A) : M A := fun m => Done a m.

Definition bind {A B} (c : M A) (k : A -> M B) : M B :=
  fun m =>
    match c m with
    | Done a m' => k a m'
    | Fault f => Fault f
    | Hang => Hang
    end.

Notation "x <- c ;; k" := (bind c (fun x => k))
  (at level 100, c at next level, k at level 200, right associativity).
Notation "c ;;; k" := (bind c (fun _ => k))
  (at level 100, k at level 200, right associativity).

(** [*p], for a pointer to a handle. *)
Definition deref (p : PLOG_HANDLE) : M LOG_HANDLE :=
  fun m =>
    match p with
    | None => Fault BadPointer
    | Some l =>
        match mem m !! l with
        | Some h => Done h m
        | None => Fault BadPointer
        end
    end.

(** [p->field = v], given as the update [f] of the handle [p] points to. *)
Definition assign (p : PLOG_HANDLE) (f : LOG_HANDLE -> LOG_HANDLE) : M unit :=
  fun m =>
    match p with
    | None => Fault BadPointer
    | Some l =>
        match mem m !! l with
        | Some h => Done tt (mkMachine (<[l := f h]> (mem m)) (sink m) (trace m))
        | None => Fault BadPointer
        end
    end.

Definition emit (e : event) : M unit :=
  fun m => Done tt (mkMachine (mem m) (sink m) (trace m ++ [e])).

(** The call [( *pfn )(ctx, fmt, va)] through a function pointer. *)
Definition call_sink (pfn : LOG_WRITE_PFN) (ctx : PVOID) (fmt : string)
    (va : VA_LIST) : M BOOLEAN :=
  fun m =>
    match pfn with
    | None => Fault NullCall
    | Some f =>
        let r := f ctx fmt va (sink m) in
        Done r.1 (mkMachine (mem m) r.2 (trace m ++ [EvSink ctx fmt va r.1]))
    end.

(** ** utils.h: the spinlock *)

(** Modelled from the spec: [LOCK_SpinlockAcquire] is declared in utils.h,
    which is not among the sources.  The spec describes the guard as a
    mutual-exclusion primitive whose acquisition busy-waits until the lock
    is available; [LOG_InitHandle] fixes 0 as the unlocked value.  Taking
    the lock is one atomic step from 0 to 1; on a held lock the caller
    spins, which in a run with no other thread never ends.  The argument is
    [&ptLog->tLock], given by the pointer to the enclosing handle. *)
Definition LOCK_SpinlockAcquire (ptLock : PLOG_HANDLE) : M unit :=
  h <- deref ptLock ;;
  if tLock h =? 0 then
    assign ptLock (set_tLock 1) ;;;
    match ptLock with Some l => emit (EvAcquire l) | None => ret tt end
  else fun _ => Hang.

(** Modelled from the spec: [LOCK_SpinlockRelease] of utils.h, not among
    the sources: it puts the lock back to the unlocked value. *)
Definition LOCK_SpinlockRelease (ptLock : PLOG_HANDLE) : M unit :=
  assign ptLock (set_tLock 0) ;;;
  match ptLock with Some l => emit (EvRelease l) | None => ret tt end.

(** ** log.h *)

Definition is_null {A} (p : option A) : bool :=
  match p with None => true | Some _ => false end.

Definition LOG_InitHandle (ptLog : PLOG_HANDLE) (pfnLogWrite : LOG_WRITE_PFN)
    (pvContext : PVOID) (eModulesFilterMask : LOG_MODULE)
    (ePriorityFilterMask : LOG_PRIORITY) : M BOOLEAN :=
  if is_null ptLog || is_null pfnLogWrite then ret FALSE
  else
    assign ptLog (set_pfnLogWrite pfnLogWrite) ;;;
    assign ptLog (set_pvContext pvContext) ;;;
    assign ptLog (set_eModulesFilterMask eModulesFilterMask) ;;;
    assign ptLog (set_ePriorityFilterMask ePriorityFilterMask) ;;;
    assign ptLog (set_tLock 0) ;;;
    ret TRUE.

Definition LOG_Write (ptLog : PLOG_HANDLE) (pszFmt : option string)
    (tVaList : VA_LIST) : M BOOLEAN :=
  match ptLog, pszFmt with
  | Some _, Some fmt =>
      h <- deref ptLog ;;
      bSuccess <- call_sink (pfnLogWrite h) (pvContext h) fmt tVaList ;;
      ret bSuccess
  | _, _ => ret FALSE
  end.

(** The test both macros start with:
    [(0 == (ptLog->ePriorityFilterMask & ePriority))
     || (0 == (ptLog->eModulesFilterMask & eModule))]. *)
Definition filtered_out (h : LOG_HANDLE) (eModule : LOG_MODULE)
    (ePriority : LOG_PRIORITY) : bool :=
  (0 =? Z.land (ePriorityFilterMask h) ePriority)
  || (0 =? Z.land (eModulesFilterMask h) eModule).

(** [LOG_WRITE].  [disable_log] says whether the build defines
    [__INTEL_HEADERS_DISABLE_LOG__]: the header then gives the macro an
    empty expansion. *)
Definition LOG_WRITE (disable_log : bool) (ptLog : PLOG_HANDLE)
    (eModule : LOG_MODULE) (ePriority : LOG_PRIORITY)
    (pszFmt : option string) (va : VA_LIST) : M unit :=
  if disable_log then ret tt
  else
    h <- deref ptLog ;;
    if filtered_out h eModule ePriority then ret tt
    else
      LOCK_SpinlockAcquire ptLog ;;;
      LOG_Write ptLog pszFmt va ;;;
      LOCK_SpinlockRelease ptLog.

(** The format of the prefix: ["(%s:%d) ["#PriorityName"] "]. *)
Definition prefix_fmt (n : PriorityName) : string :=
  "(%s:%d) [" +:+ stringify n +:+ "] ".

(** The suffix: ["\r\n"], carriage return then line feed. *)
Definition suffix_fmt : string :=
  String (Ascii.ascii_of_nat 13) (String (Ascii.ascii_of_nat 10) EmptyString).

(** [__LOG_PREFIX_BY_PRIORITY].  [file] and [line] are [__FILE__] and
    [__LINE__] at the place of the call.  The macro is defined after the
    [#endif] that closes the [__INTEL_HEADERS_DISABLE_LOG__] block. *)
Definition __LOG_PREFIX_BY_PRIORITY (ptLog : PLOG_HANDLE)
    (eModule : LOG_MODULE) (n : PriorityName) (pszFmt : option string)
    (va : VA_LIST) (file : string) (line : Z) : M unit :=
  h <- deref ptLog ;;
  if filtered_out h eModule (paste_LOG_PRIORITY n) then ret tt
  else
    LOCK_SpinlockAcquire ptLog ;;;
    LOG_Write ptLog (Some (prefix_fmt n)) [VaStr file; VaInt line] ;;;
    LOG_Write ptLog pszFmt va ;;;
    LOG_Write ptLog (Some suffix_fmt) [] ;;;
    LOCK_SpinlockRelease ptLog.

Definition LOG_ERROR ptLog eModule pszFmt va file line : M unit :=
  __LOG_PREFIX_BY_PRIORITY ptLog eModule ERROR pszFmt va file line.
Definition LOG_WARN ptLog eModule pszFmt va file line : M unit :=
  __LOG_PREFIX_BY_PRIORITY ptLog eModule WARN pszFmt va file line.
Definition LOG_INFO ptLog eModule pszFmt va file line : M unit :=
  __LOG_PREFIX_BY_PRIORITY ptLog eModule INFO pszFmt va file line.
Definition LOG_DEBUG ptLog eModule pszFmt va file line : M unit :=
  __LOG_PREFIX_BY_PRIORITY ptLog eModule DEBUG pszFmt va file line.
Definition LOG_TRACE ptLog eModule pszFmt va file line : M unit :=
  __LOG_PREFIX_BY_PRIORITY ptLog eModule TRACE pszFmt va file line.

(** The decorated macro that goes with a priority name. *)
Definition LOG_decorated (n : PriorityName) :
    PLOG_HANDLE -> LOG_MODULE -> option string -> VA_LIST -> string -> Z -> M unit :=
  match n with
  | ERROR => LOG_ERROR
  | WARN => LOG_WARN
  | INFO => LOG_INFO
  | DEBUG => LOG_DEBUG
  | TRACE => LOG_TRACE
  end.

(** ** Calls of the logging operations *)

(** One call of a logging operation on a handle, as a caller writes it:
    the function [LOG_Write] with its result dropped, the macro [LOG_WRITE],
    or one of the five decorated macros. *)
Inductive log_call :=
| CallWrite (pszFmt : option string) (va : VA_LIST)
| CallWRITE (eModule : LOG_MODULE) (ePriority : LOG_PRIORITY)
    (pszFmt : option string) (va : VA_LIST)
| CallDecorated (n : PriorityName) (eModule : LOG_MODULE)
    (pszFmt : option string) (va : VA_LIST) (file : string) (line : Z).

(** The call as the preprocessor and compiler see it in a build that
    defines [__INTEL_HEADERS_DISABLE_LOG__] ([disable_log = true]) or does
    not. *)
Definition run_call (disable_log : bool) (ptLog : PLOG_HANDLE)
    (c : log_call) : M unit :=
  match c with
  | CallWrite pszFmt va => LOG_Write ptLog pszFmt va ;;; ret tt
  | CallWRITE eModule ePriority pszFmt va =>
      LOG_WRITE disable_log ptLog eModule ePriority pszFmt va
  | CallDecorated n eModule pszFmt va file line =>
      LOG_decorated n ptLog eModule pszFmt va file line
  end.

(** [LOG_Write] is a function; the other two kinds are macros. *)
Definition is_macro (c : log_call) : bool :=
  match c with CallWrite _ _ => false | _ => true end.

(** What a run added to the trace. *)
Definition new_events (m m' : machine) : list event :=
  drop (length (trace m)) (trace m').

Definition is_sink_event (e : event) : bool :=
  match e with EvSink _ _ _ _ => true | _ => false end.

(** How often a run invoked the sink; [None] when it did not complete. *)
Definition sink_invocations {A} (m : machine) (r : outcome A) : option nat :=
  match r with
  | Done _ m' => Some (length (filter (fun e => is_sink_event e = true) (new_events m m')))
  | _ => None
  end.

(** ** Threads *)

(** The decorated macro as a sequence of atomic steps, for runs in which
    several threads log to one handle.  A program point names the next
    statement of the expansion of [__LOG_PREFIX_BY_PRIORITY]. *)
Inductive pc :=
| AtFilter | AtAcquire | AtPrefix | AtBody | AtSuffix | AtRelease | AtEnd.

Record decorated_call := mkCall {
  dc_name : PriorityName;
  dc_module : LOG_MODULE;
  dc_fmt : option string;
  dc_va : VA_LIST;
  dc_file : string;
  dc_line : Z
}.

(** The statement at a program point, returning the next program point. *)
Definition step_at (ptLog : PLOG_HANDLE) (c : decorated_call) (p : pc) : M pc :=
  match p with
  | AtFilter =>
      h <- deref ptLog ;;
      if filtered_out h (dc_module c) (paste_LOG_PRIORITY (dc_name c))
      then ret AtEnd else ret AtAcquire
  | AtAcquire => LOCK_SpinlockAcquire ptLog ;;; ret AtPrefix
  | AtPrefix =>
      LOG_Write ptLog (Some (prefix_fmt (dc_name c)))
        [VaStr (dc_file c); VaInt (dc_line c)] ;;;
      ret AtBody
  | AtBody => LOG_Write ptLog (dc_fmt c) (dc_va c) ;;; ret AtSuffix
  | AtSuffix => LOG_Write ptLog (Some suffix_fmt) [] ;;; ret AtRelease
  | AtRelease => LOCK_SpinlockRelease ptLog ;;; ret AtEnd
  | AtEnd => ret AtEnd
  end.

(** The steps of one call, in sequence, by one thread alone. *)
Fixpoint run_steps (fuel : nat) (ptLog : PLOG_HANDLE) (c : decorated_call)
    (p : pc) : M unit :=
  match p, fuel with
  | AtEnd, _ => ret tt
  | _, O => fun _ => Hang
  | _, S fuel' => p' <- step_at ptLog c p ;; run_steps fuel' ptLog c p'
  end.

(** A thread: where it is in its current call, how many calls it has
    completed, and the calls it still has to make (the current one first).
    The pair of a thread and the number of one of its calls names a
    message. *)
Record thread := mkThread {
  th_pc : pc;
  th_done : nat;
  th_todo : list decorated_call
}.

(** One request in a run of several threads: the thread that made it, the
    number of the call it made it for, and the request. *)
Record entry := mkEntry {
  en_thread : nat;
  en_call : nat;
  en_event : event
}.

(** The threads share the machine.  The log attributes every event of the
    trace to the thread and the call whose step produced it. *)
Record config := mkConfig {
  shared : machine;
  threads : list thread;
  log : list entry
}.

(** Thread [t] is scheduled for one step.  A thread that has finished, spins
    on the lock or has crashed does not move. *)
Definition sched_step (ptLog : PLOG_HANDLE) (t : nat) (cfg : config) : config :=
  match threads cfg !! t with
  | Some (mkThread p k (c :: rest)) =>
      match step_at ptLog c p (shared cfg) with
      | Done p' m' =>
          mkConfig m'
            (<[t := match p' with
                    | AtEnd => mkThread AtFilter (S k) rest
                    | _ => mkThread p' k (c :: rest)
                    end]> (threads cfg))
            (log cfg ++ map (mkEntry t k) (new_events (shared cfg) m'))
      | _ => cfg
      end
  | _ => cfg
  end.

(** A schedule names the thread to run at each step. *)
Definition run_schedule (ptLog : PLOG_HANDLE) (s : list nat) (cfg : config) : config :=
  fold_left (fun c t => sched_step ptLog t c) s cfg.

(** All threads at the start of their first call. *)
Definition init_config (m : machine) (progs : list (list decorated_call)) : config :=
  mkConfig m (map (mkThread AtFilter 0) progs) [].

End Log.

Arguments Done {SinkSt A} a m.
Arguments Fault {SinkSt A} f.
Arguments Hang {SinkSt A}.

(** *** Reading a log for the guard *)

(** A message: a thread and the number of one of its calls. *)
Definition message : Type := nat * nat.

(** While a log is read: the message that holds the guard, and for every
    thread the number of the first call it has not yet released the guard
    for. *)
Record guard_state := mkGuard {
  holder : option message;
  next_call : nat -> nat
}.

Definition guard_start : guard_state := mkGuard None (fun _ => 0%nat).

(** One entry read in state [g]: an acquire needs the guard free and a call
    number the thread has not released yet; a sink call and a release need
    the guard held by the message of the entry; a release closes the
    message.  [None] when the entry breaks this. *)
Definition guard_step (g : guard_state) (en : entry) : option guard_state :=
  let msg := (en_thread en, en_call en) in
  match en_event en with
  | EvAcquire _ =>
      match holder g with
      | None =>
          if decide (next_call g (en_thread en) <= en_call en)%nat
          then Some (mkGuard (Some msg) (next_call g))
          else None
      | Some _ => None
      end
  | EvSink _ _ _ _ =>
      if decide (holder g = Some msg) then Some g else None
  | EvRelease _ =>
      if decide (holder g = Some msg)
      then Some (mkGuard None
                   (fun t => if decide (t = en_thread en)
                             then Nat.max (next_call g t) (S (en_call en))
                             else next_call g t))
      else None
  end.

Fixpoint guard_run (g : guard_state) (lg : list entry) : option guard_state :=
  match lg with
  | [] => Some g
  | en :: lg' =>
      match guard_step g en with
      | Some g' => guard_run g' lg'
      | None => None
      end
  end.

(** The program points between acquire and release. *)
Definition in_guard (p : pc) : bool :=
  match p with
  | AtPrefix | AtBody | AtSuffix | AtRelease => true
  | _ => false
  end.

(** Thread [t] in state [th] agrees with the guard state [g]: it has
    released the guard only for calls it has completed, and it is between
    acquire and release exactly when its current call holds the guard. *)
Definition thread_ok (g : guard_state) (t : nat) (th : thread) : Prop :=
  (next_call g t <= th_done th)%nat
  /\ (in_guard (th_pc th) = true -> holder g = Some (t, th_done th))
  /\ (forall k, holder g = Some (t, k) -> in_guard (th_pc th) = true).

(** What holds of every configuration the threads reach: the log respects
    the guard and leaves it in state [g]; every thread agrees with [g]; and
    when the lock cell of the handle at [l] reads 0, nobody holds the
    guard. *)
Definition guard_inv {SinkSt : Type} (l : loc) (cfg : @config SinkSt) : Prop :=
  exists g : guard_state,
    guard_run guard_start (log cfg) = Some g
    /\ (forall t th, threads cfg !! t = Some th -> thread_ok g t th)
    /\ (forall h, mem (shared cfg) !! l = Some h -> tLock h = 0 -> holder g = None).

(** The event [e] is a request of the call [c]: any lock request, or a
    sink call with the prefix, the body or the suffix of [c]. *)
Definition part_of (c : decorated_call) (e : event) : Prop :=
  match e with
  | EvSink _ fmt va _ =>
      (fmt = prefix_fmt (dc_name c) /\ va = [VaStr (dc_file c); VaInt (dc_line c)])
      \/ (dc_fmt c = Some fmt /\ va = dc_va c)
      \/ (fmt = suffix_fmt /\ va = [])
  | _ => True
  end.

(** The call numbers mean what they say: a thread that has completed [k]
    calls has the rest of its program to do, and an entry of the log for
    call [k] of thread [t] is a request of the [k]-th call of the program
    of [t]. *)
Definition prog_inv {SinkSt : Type} (progs : list (list decorated_call))
    (cfg : @config SinkSt) : Prop :=
  (forall t th, threads cfg !! t = Some th ->
     exists cs, progs !! t = Some cs /\ th_todo th = drop (th_done th) cs)
  /\ (forall en, In en (log cfg) ->
       exists cs c, progs !! en_thread en = Some cs
                    /\ cs !! en_call en = Some c
                    /\ part_of c (en_event en)).

(** ** Sequences of calls *)

(** A caller that makes the calls [cs] one after the other on one handle. *)
Fixpoint run_calls {SinkSt : Type} (disable_log : bool) (ptLog : @PLOG_HANDLE)
    (cs : list log_call) : @M SinkSt unit :=
  match cs with
  | [] => ret tt
  | c :: cs' =>
      bind (run_call disable_log ptLog c) (fun _ => run_calls disable_log ptLog cs')
  end.

Definition is_acquire_event (e : event) : bool :=
  match e with EvAcquire _ => true | _ => false end.

Definition is_release_event (e : event) : bool :=
  match e with EvRelease _ => true | _ => false end.

(** How many events of a list pass the test [p]. *)
Definition count_events (p : event -> bool) (evs : list event) : nat :=
  length (filter (fun e => p e = true) evs).

(** The number of raw writes of a call that reach the sink, counted on the
    text of the call: [LOG_Write] makes its one call of the sink when the
    format is not null; [LOG_WRITE] has that one raw write behind the build
    flag and the filter; a decorated macro has, behind the filter, the
    prefix and the suffix with their literal formats and the body with the
    caller's. *)
Definition sink_calls_due {SinkSt : Type} (disable_log : bool)
    (h : @LOG_HANDLE SinkSt) (c : log_call) : nat :=
  let body (pszFmt : option string) : nat :=
    match pszFmt with Some _ => 1%nat | None => 0%nat end in
  match c with
  | CallWrite pszFmt _ => body pszFmt
  | CallWRITE eModule ePriority pszFmt _ =>
      if disable_log || filtered_out h eModule ePriority then 0%nat
      else body pszFmt
  | CallDecorated n eModule pszFmt _ _ _ =>
      if filtered_out h eModule (paste_LOG_PRIORITY n) then 0%nat
      else (1 + body pszFmt + 1)%nat
  end.

(** What keeps the threads going: the handle at [l] is there and holds the
    sink [f], and when its lock cell does not read 0 some thread is between
    acquire and release of a call. *)
Definition live_inv {SinkSt : Type} (l : loc) (f : @sink_fn SinkSt)
    (cfg : @config SinkSt) : Prop :=
  exists h, mem (shared cfg) !! l = Some h
            /\ pfnLogWrite h = Some f
            /\ (tLock h = 0
                \/ exists t th, threads cfg !! t = Some th
                                /\ in_guard (th_pc th) = true
                                /\ th_todo th <> []).

(** ** Example data *)

Module Demo.

(** A sink that appends the format to a console and reports success. *)
Definition console_sink : @sink_fn (list string) :=
  fun _ fmt _ st => (TRUE, st ++ [fmt]).

(** A sink that writes nothing and reports failure. *)
Definition broken_sink : @sink_fn (list string) :=
  fun _ _ _ st => (FALSE, st).

Definition handle (f : @LOG_WRITE_PFN (list string)) : LOG_HANDLE :=
  mkLOG_HANDLE f (Some 7%N)
    (Z.lor LOG_PRIORITY_ERROR LOG_PRIORITY_TRACE) LOG_MODULE_PAGING 0.

Definition machine_with (h : @LOG_HANDLE (list string)) : machine :=
  mkMachine {[ 1%N := h ]} [] [].

Definition m0 : machine := machine_with (handle (Some console_sink)).
Definition m_broken : machine := machine_with (handle (Some broken_sink)).
Definition m_nosink : machine := machine_with (handle None).

Definition ptLog : @PLOG_HANDLE := Some 1%N.

(** Storage that was never initialised: no sink, a lock cell that reads
    "held", arbitrary masks. *)
Definition garbage : @LOG_HANDLE (list string) :=
  mkLOG_HANDLE None (Some 99%N) 12345 678 5.

(** A handle that lets everything through. *)
Definition m_all : machine :=
  machine_with
    (mkLOG_HANDLE (Some console_sink) (Some 7%N) LOG_PRIORITY_ALL LOG_MODULE_ALL 0).

Definition call_error : decorated_call :=
  mkCall ERROR LOG_MODULE_PAGING (Some "x=%d") [VaInt 5] "paging.c" 42.
Definition call_trace : decorated_call :=
  mkCall TRACE LOG_MODULE_ALL (Some "enter") [] "vmx.c" 7.

Definition body_call : log_call :=
  CallDecorated ERROR LOG_MODULE_PAGING (Some "x=%d") [VaInt 5] "paging.c" 42.

(** The requests of one decorated call [c] through [console_sink]. *)
Definition ev_prefix (c : decorated_call) : event :=
  EvSink (Some 7%N) (prefix_fmt (dc_name c)) [VaStr (dc_file c); VaInt (dc_line c)] TRUE.
Definition ev_body (c : decorated_call) : event :=
  EvSink (Some 7%N) (default "" (dc_fmt c)) (dc_va c) TRUE.
Definition ev_suffix : event := EvSink (Some 7%N) suffix_fmt [] TRUE.

(** [m0] after [LOG_ERROR] of [call_error]. *)
Definition m0_after_error : machine :=
  mkMachine (mem m0) ["(%s:%d) [ERROR] "; "x=%d"; suffix_fmt]
    [EvAcquire 1%N; ev_prefix call_error; ev_body call_error; ev_suffix;
     EvRelease 1%N].

(** Two threads: the first logs two errors, the second one trace message.
    The second thread asks for the lock while the first holds it, and the
    first asks again while the second holds it. *)
Definition progs : list (list decorated_call) :=
  [[call_error; call_error]; [call_trace]].
Definition sched : list nat :=
  [0; 1; 0; 1; 0; 1; 0; 0; 1; 0; 0; 1; 0; 1; 1; 0; 1; 0; 0; 0; 0; 0;
   1; 0; 0; 0; 0; 0]%nat.

End Demo.

(** * Properties *)

Section LogFacts.

Context {SinkSt : Type}.

Implicit Types (m : @machine SinkSt) (h : @LOG_HANDLE SinkSt) (l : loc).
Implicit Types (f : @sink_fn SinkSt) (va : VA_LIST) (fmt : string).

(** ** The primitives on a valid handle *)

Lemma bind_Done {A B} (c : M A) (k : A -> M B) m a m' :
  c m = Done a m' -> bind c k m = k a m'.
Proof. unfold bind. intros ->. reflexivity. Qed.

Lemma deref_valid m l h : mem m !! l = Some h -> deref (Some l) m = Done h m.
Proof. unfold deref. intros ->. reflexivity. Qed.

Lemma assign_valid m l h (g : LOG_HANDLE -> LOG_HANDLE) :
  mem m !! l = Some h ->
  assign (Some l) g m = Done tt (mkMachine (<[l := g h]> (mem m)) (sink m) (trace m)).
Proof. unfold assign. intros ->. reflexivity. Qed.

Lemma LOG_Write_valid m l h f fmt va :
  mem m !! l = Some h ->
  pfnLogWrite h = Some f ->
  LOG_Write (Some l) (Some fmt) va m =
    Done (f (pvContext h) fmt va (sink m)).1
      (mkMachine (mem m) (f (pvContext h) fmt va (sink m)).2
         (trace m ++ [EvSink (pvContext h) fmt va (f (pvContext h) fmt va (sink m)).1])).
Proof.
  intros Hl Hf. unfold LOG_Write.
  rewrite (bind_Done _ _ _ _ _ (deref_valid _ _ _ Hl)).
  unfold bind, call_sink. rewrite Hf. reflexivity.
Qed.

Lemma LOG_Write_null_fmt m l va : LOG_Write (Some l) None va m = Done FALSE m.
Proof. reflexivity. Qed.

Lemma LOCK_SpinlockAcquire_free m l h :
  mem m !! l = Some h ->
  tLock h = 0 ->
  LOCK_SpinlockAcquire (Some l) m =
    Done tt (mkMachine (<[l := set_tLock 1 h]> (mem m)) (sink m) (trace m ++ [EvAcquire l])).
Proof.
  intros Hl H0. unfold LOCK_SpinlockAcquire.
  rewrite (bind_Done _ _ _ _ _ (deref_valid _ _ _ Hl)).
  rewrite H0. simpl.
  rewrite (bind_Done _ _ _ _ _ (assign_valid _ _ _ _ Hl)).
  reflexivity.
Qed.

Lemma LOCK_SpinlockAcquire_held m l h :
  mem m !! l = Some h ->
  tLock h <> 0 ->
  LOCK_SpinlockAcquire (Some l) m = Hang.
Proof.
  intros Hl H0. unfold LOCK_SpinlockAcquire.
  rewrite (bind_Done _ _ _ _ _ (deref_valid _ _ _ Hl)).
  destruct (Z.eqb_spec (tLock h) 0); [contradiction | reflexivity].
Qed.

Lemma LOCK_SpinlockRelease_valid m l h :
  mem m !! l = Some h ->
  LOCK_SpinlockRelease (Some l) m =
    Done tt (mkMachine (<[l := set_tLock 0 h]> (mem m)) (sink m) (trace m ++ [EvRelease l])).
Proof.
  intros Hl. unfold LOCK_SpinlockRelease.
  rewrite (bind_Done _ _ _ _ _ (assign_valid _ _ _ _ Hl)).
  reflexivity.
Qed.

Lemma set_tLock_same h : set_tLock (tLock h) h = h.
Proof. destruct h; reflexivity. Qed.

Lemma set_tLock_twice v w h : set_tLock v (set_tLock w h) = set_tLock v h.
Proof. reflexivity. Qed.

(** The test of the macros, as a statement about the two masks. *)
Lemma filtered_out_true h eModule ePriority :
  filtered_out h eModule ePriority = true <->
  Z.land (ePriorityFilterMask h) ePriority = 0
  \/ Z.land (eModulesFilterMask h) eModule = 0.
Proof.
  unfold filtered_out. rewrite orb_true_iff, !Z.eqb_eq.
  split; (intros [H | H]; [left | right]; congruence).
Qed.

Lemma filtered_out_false h eModule ePriority :
  filtered_out h eModule ePriority = false <->
  Z.land (ePriorityFilterMask h) ePriority <> 0
  /\ Z.land (eModulesFilterMask h) eModule <> 0.
Proof.
  unfold filtered_out. rewrite orb_false_iff, !Z.eqb_neq.
  split; (intros [H1 H2]; split; congruence).
Qed.

Lemma LOG_decorated_unfold n :
  LOG_decorated (SinkSt := SinkSt) n =
  fun ptLog eModule pszFmt va file line =>
    __LOG_PREFIX_BY_PRIORITY ptLog eModule n pszFmt va file line.
Proof. destruct n; reflexivity. Qed.

(** ** The filter *)

(** C1: a call of [LOG_WRITE] or of a decorated macro whose priority misses
    the handle's priority mask, or whose module misses the handle's module
    mask, completes and leaves the machine as it was: the trace has no new
    acquire and no new sink call, and memory and sink state are the same. *)
Theorem C1_filtered_call_is_noop m l h :
  mem m !! l = Some h ->
  (forall disable_log eModule ePriority pszFmt va,
      Z.land (ePriorityFilterMask h) ePriority = 0
      \/ Z.land (eModulesFilterMask h) eModule = 0 ->
      LOG_WRITE disable_log (Some l) eModule ePriority pszFmt va m = Done tt m)
  /\ (forall n eModule pszFmt va file line,
      Z.land (ePriorityFilterMask h) (paste_LOG_PRIORITY n) = 0
      \/ Z.land (eModulesFilterMask h) eModule = 0 ->
      LOG_decorated n (Some l) eModule pszFmt va file line m = Done tt m).
Proof.
  intros Hl. split.
  - intros disable_log eModule ePriority pszFmt va Hrej.
    apply filtered_out_true in Hrej.
    unfold LOG_WRITE. destruct disable_log; [reflexivity |].
    rewrite (bind_Done _ _ _ _ _ (deref_valid _ _ _ Hl)).
    rewrite Hrej. reflexivity.
  - intros n eModule pszFmt va file line Hrej.
    apply filtered_out_true in Hrej.
    rewrite LOG_decorated_unfold. unfold __LOG_PREFIX_BY_PRIORITY.
    rewrite (bind_Done _ _ _ _ _ (deref_valid _ _ _ Hl)).
    rewrite Hrej. reflexivity.
Qed.

(** ** Construction *)

Lemma LOG_InitHandle_null m ptLog pfn ctx eModules ePriority :
  ptLog = NULL \/ pfn = NULL ->
  LOG_InitHandle ptLog pfn ctx eModules ePriority m = Done FALSE m.
Proof.
  intros [-> | ->]; unfold LOG_InitHandle; simpl.
  - reflexivity.
  - rewrite orb_true_r. reflexivity.
Qed.

Lemma LOG_InitHandle_valid m l f h0 ctx eModules ePriority :
  mem m !! l = Some h0 ->
  LOG_InitHandle (Some l) (Some f) ctx eModules ePriority m =
    Done TRUE
      (mkMachine (<[l := mkLOG_HANDLE (Some f) ctx ePriority eModules 0]> (mem m))
         (sink m) (trace m)).
Proof.
  intros Hl. unfold LOG_InitHandle. simpl.
  rewrite (bind_Done _ _ _ _ _ (assign_valid _ _ _ _ Hl)).
  repeat (erewrite bind_Done;
          [| apply assign_valid; simpl; apply lookup_insert_eq]; simpl;
          rewrite insert_insert_eq).
  reflexivity.
Qed.

Lemma LOG_InitHandle_dangling m l f ctx eModules ePriority :
  mem m !! l = None ->
  LOG_InitHandle (Some l) (Some f) ctx eModules ePriority m = Fault BadPointer.
Proof.
  intros Hl. unfold LOG_InitHandle, bind, assign. simpl. rewrite Hl. reflexivity.
Qed.

(** C4: [LOG_InitHandle] returns [FALSE] exactly when the handle pointer or
    the sink pointer is null, and then changes nothing; on storage that
    exists (whatever it held) and with a sink it stores the four arguments,
    puts the lock to 0 and returns [TRUE], for every context and masks. *)
Theorem C4_LOG_InitHandle m ptLog pfn ctx eModules ePriority :
  ((exists m', LOG_InitHandle ptLog pfn ctx eModules ePriority m = Done FALSE m')
   <-> ptLog = NULL \/ pfn = NULL)
  /\ (ptLog = NULL \/ pfn = NULL ->
      LOG_InitHandle ptLog pfn ctx eModules ePriority m = Done FALSE m)
  /\ (forall l f h0,
      ptLog = Some l -> pfn = Some f -> mem m !! l = Some h0 ->
      LOG_InitHandle ptLog pfn ctx eModules ePriority m =
        Done TRUE
          (mkMachine (<[l := mkLOG_HANDLE (Some f) ctx ePriority eModules 0]> (mem m))
             (sink m) (trace m))).
Proof.
  split; [| split].
  - split; [| intros H; exists m; apply LOG_InitHandle_null, H].
    intros [m' Hres].
    destruct ptLog as [l |]; [| left; reflexivity].
    destruct pfn as [f |]; [| right; reflexivity].
    exfalso. destruct (mem m !! l) as [h0 |] eqn:Hl.
    + rewrite (LOG_InitHandle_valid _ _ _ _ _ _ _ Hl) in Hres. discriminate.
    + rewrite (LOG_InitHandle_dangling _ _ _ _ _ _ Hl) in Hres. discriminate.
  - apply LOG_InitHandle_null.
  - intros l f h0 -> -> Hl. apply (LOG_InitHandle_valid _ _ _ h0), Hl.
Qed.

(** ** The raw write *)

(** C5: [LOG_Write] with a null handle or a null format returns [FALSE] and
    leaves the machine as it was (no sink call); with both non-null, on a
    handle that holds a sink, it calls that sink once with the handle's
    context, the format and the argument list, returns what the sink
    returned, and touches neither the masks nor the lock, whatever they
    hold. *)
Theorem C5_LOG_Write m ptLog pszFmt va :
  (ptLog = NULL \/ pszFmt = NULL -> LOG_Write ptLog pszFmt va m = Done FALSE m)
  /\ (forall l fmt h f,
      ptLog = Some l -> pszFmt = Some fmt ->
      mem m !! l = Some h -> pfnLogWrite h = Some f ->
      let r := f (pvContext h) fmt va (sink m) in
      LOG_Write ptLog pszFmt va m =
        Done r.1 (mkMachine (mem m) r.2 (trace m ++ [EvSink (pvContext h) fmt va r.1]))).
Proof.
  split.
  - intros [-> | ->]; [reflexivity |]. destruct ptLog; reflexivity.
  - intros l fmt h f -> -> Hl Hf. simpl. apply LOG_Write_valid; assumption.
Qed.

(** C9: [LOG_Write] tests the handle pointer and the format pointer only.
    On a handle whose [pfnLogWrite] is null, with a format that is not
    null, it does not return [FALSE]: it goes on to call through the null
    pointer, which is the fault [NullCall]. *)
Theorem C9_LOG_Write_null_sink_unchecked m l h fmt va :
  mem m !! l = Some h ->
  pfnLogWrite h = NULL ->
  LOG_Write (Some l) (Some fmt) va m = Fault NullCall
  /\ (forall b m', LOG_Write (Some l) (Some fmt) va m <> Done b m').
Proof.
  intros Hl Hf.
  assert (H : LOG_Write (Some l) (Some fmt) va m = Fault NullCall).
  { unfold LOG_Write.
    rewrite (bind_Done _ _ _ _ _ (deref_valid _ _ _ Hl)).
    unfold bind, call_sink. rewrite Hf. reflexivity. }
  split; [exact H |]. intros b m'. rewrite H. discriminate.
Qed.

(** ** The guarded section *)

Lemma set_tLock_unlocked h : tLock h = 0 -> set_tLock 0 (set_tLock 1 h) = h.
Proof. intros H. rewrite set_tLock_twice, <- H. apply set_tLock_same. Qed.

Lemma mem_restored m l h :
  mem m !! l = Some h -> tLock h = 0 ->
  <[l := set_tLock 0 (set_tLock 1 h)]> (<[l := set_tLock 1 h]> (mem m)) = mem m.
Proof.
  intros Hl H0. rewrite insert_insert_eq, set_tLock_unlocked by exact H0.
  apply insert_id, Hl.
Qed.

Ltac step_valid lem :=
  erewrite bind_Done; [| eapply lem; simpl; first [eassumption | apply lookup_insert_eq]];
  simpl.

Lemma prefix_by_priority_valid m l h f n eModule fmt va file line :
  mem m !! l = Some h -> pfnLogWrite h = Some f -> tLock h = 0 ->
  filtered_out h eModule (paste_LOG_PRIORITY n) = false ->
  let ctx := pvContext h in
  let r1 := f ctx (prefix_fmt n) [VaStr file; VaInt line] (sink m) in
  let r2 := f ctx fmt va r1.2 in
  let r3 := f ctx suffix_fmt [] r2.2 in
  __LOG_PREFIX_BY_PRIORITY (Some l) eModule n (Some fmt) va file line m =
    Done tt
      (mkMachine (mem m) r3.2
         (trace m ++ [EvAcquire l;
                      EvSink ctx (prefix_fmt n) [VaStr file; VaInt line] r1.1;
                      EvSink ctx fmt va r2.1;
                      EvSink ctx suffix_fmt [] r3.1;
                      EvRelease l])).
Proof.
  intros Hl Hf H0 Hpass. simpl. unfold __LOG_PREFIX_BY_PRIORITY.
  rewrite (bind_Done _ _ _ _ _ (deref_valid _ _ _ Hl)), Hpass.
  rewrite (bind_Done _ _ _ _ _ (LOCK_SpinlockAcquire_free _ _ _ Hl H0)).
  do 3 step_valid LOG_Write_valid.
  erewrite LOCK_SpinlockRelease_valid by (simpl; apply lookup_insert_eq).
  simpl. rewrite mem_restored by assumption.
  rewrite <- !app_assoc. reflexivity.
Qed.

(** With a null format the body write returns [FALSE] before it reaches the
    sink: prefix and suffix are still written. *)
Lemma prefix_by_priority_null_fmt m l h f n eModule va file line :
  mem m !! l = Some h -> pfnLogWrite h = Some f -> tLock h = 0 ->
  filtered_out h eModule (paste_LOG_PRIORITY n) = false ->
  let ctx := pvContext h in
  let r1 := f ctx (prefix_fmt n) [VaStr file; VaInt line] (sink m) in
  let r3 := f ctx suffix_fmt [] r1.2 in
  __LOG_PREFIX_BY_PRIORITY (Some l) eModule n None va file line m =
    Done tt
      (mkMachine (mem m) r3.2
         (trace m ++ [EvAcquire l;
                      EvSink ctx (prefix_fmt n) [VaStr file; VaInt line] r1.1;
                      EvSink ctx suffix_fmt [] r3.1;
                      EvRelease l])).
Proof.
  intros Hl Hf H0 Hpass. simpl. unfold __LOG_PREFIX_BY_PRIORITY.
  rewrite (bind_Done _ _ _ _ _ (deref_valid _ _ _ Hl)), Hpass.
  rewrite (bind_Done _ _ _ _ _ (LOCK_SpinlockAcquire_free _ _ _ Hl H0)).
  step_valid LOG_Write_valid.
  erewrite bind_Done; [| reflexivity].
  step_valid LOG_Write_valid.
  erewrite LOCK_SpinlockRelease_valid by (simpl; apply lookup_insert_eq).
  simpl. rewrite mem_restored by assumption.
  rewrite <- !app_assoc. reflexivity.
Qed.

Lemma LOG_WRITE_valid m l h f eModule ePriority fmt va :
  mem m !! l = Some h -> pfnLogWrite h = Some f -> tLock h = 0 ->
  filtered_out h eModule ePriority = false ->
  let r := f (pvContext h) fmt va (sink m) in
  LOG_WRITE false (Some l) eModule ePriority (Some fmt) va m =
    Done tt
      (mkMachine (mem m) r.2
         (trace m ++ [EvAcquire l; EvSink (pvContext h) fmt va r.1; EvRelease l])).
Proof.
  intros Hl Hf H0 Hpass. simpl. unfold LOG_WRITE.
  rewrite (bind_Done _ _ _ _ _ (deref_valid _ _ _ Hl)), Hpass.
  rewrite (bind_Done _ _ _ _ _ (LOCK_SpinlockAcquire_free _ _ _ Hl H0)).
  step_valid LOG_Write_valid.
  erewrite LOCK_SpinlockRelease_valid by (simpl; apply lookup_insert_eq).
  simpl. rewrite mem_restored by assumption.
  rewrite <- !app_assoc. reflexivity.
Qed.

Lemma LOG_WRITE_null_fmt m l h eModule ePriority va :
  mem m !! l = Some h -> tLock h = 0 ->
  filtered_out h eModule ePriority = false ->
  LOG_WRITE false (Some l) eModule ePriority None va m =
    Done tt (mkMachine (mem m) (sink m) (trace m ++ [EvAcquire l; EvRelease l])).
Proof.
  intros Hl H0 Hpass. unfold LOG_WRITE.
  rewrite (bind_Done _ _ _ _ _ (deref_valid _ _ _ Hl)), Hpass.
  rewrite (bind_Done _ _ _ _ _ (LOCK_SpinlockAcquire_free _ _ _ Hl H0)).
  erewrite bind_Done; [| reflexivity].
  erewrite LOCK_SpinlockRelease_valid by (simpl; apply lookup_insert_eq).
  simpl. rewrite mem_restored by assumption.
  rewrite <- !app_assoc. reflexivity.
Qed.

Lemma new_events_app m mem' sink' evs :
  new_events m (mkMachine mem' sink' (trace m ++ evs)) = evs.
Proof. unfold new_events. simpl. apply drop_app_length. Qed.

Lemma new_events_same m : new_events m m = [].
Proof. unfold new_events. apply drop_all. Qed.

(** ** The decorated macros *)

(** C2: a decorated call that passes both masks, on a handle that holds a
    sink and whose lock is free, with a format, completes after exactly
    five requests: acquire, the sink with the prefix format
    ["(%s:%d) [NAME] "] and the arguments file and line, the sink with the
    caller's format and arguments, the sink with the suffix, release.  The
    suffix is the two characters carriage return (code 13) and line feed
    (code 10), in this order, with no argument.  The sink is any function:
    whatever each call returns, the next one is made and the lock ends
    released, memory unchanged. *)
Theorem C2_decorated_call_writes_three_parts m l h f n eModule fmt va file line :
  mem m !! l = Some h -> pfnLogWrite h = Some f -> tLock h = 0 ->
  Z.land (ePriorityFilterMask h) (paste_LOG_PRIORITY n) <> 0 ->
  Z.land (eModulesFilterMask h) eModule <> 0 ->
  let ctx := pvContext h in
  let r1 := f ctx (prefix_fmt n) [VaStr file; VaInt line] (sink m) in
  let r2 := f ctx fmt va r1.2 in
  let r3 := f ctx suffix_fmt [] r2.2 in
  prefix_fmt n = match n with
                 | ERROR => "(%s:%d) [ERROR] "
                 | WARN => "(%s:%d) [WARN] "
                 | INFO => "(%s:%d) [INFO] "
                 | DEBUG => "(%s:%d) [DEBUG] "
                 | TRACE => "(%s:%d) [TRACE] "
                 end
  /\ suffix_fmt = String "013"%char (String "010"%char EmptyString)
  /\ map Ascii.nat_of_ascii (String.list_ascii_of_string suffix_fmt) = [13; 10]%nat
  /\ LOG_decorated n (Some l) eModule (Some fmt) va file line m =
      Done tt
        (mkMachine (mem m) r3.2
           (trace m ++ [EvAcquire l;
                        EvSink ctx (prefix_fmt n) [VaStr file; VaInt line] r1.1;
                        EvSink ctx fmt va r2.1;
                        EvSink ctx suffix_fmt [] r3.1;
                        EvRelease l])).
Proof.
  intros Hl Hf H0 Hp Hm. cbv zeta. split; [destruct n; reflexivity |].
  split; [reflexivity |]. split; [reflexivity |].
  rewrite LOG_decorated_unfold.
  apply prefix_by_priority_valid; try assumption.
  apply filtered_out_false. split; assumption.
Qed.

(** ** The undecorated filtered write *)

(** C6: in a build with logging enabled, a call of [LOG_WRITE] that passes
    both masks, on a handle that holds a sink and whose lock is free, with
    a format, completes after exactly three requests: acquire, the sink
    with the caller's format and arguments, release. *)
Theorem C6_LOG_WRITE_writes_body_only m l h f eModule ePriority fmt va :
  mem m !! l = Some h -> pfnLogWrite h = Some f -> tLock h = 0 ->
  Z.land (ePriorityFilterMask h) ePriority <> 0 ->
  Z.land (eModulesFilterMask h) eModule <> 0 ->
  let r := f (pvContext h) fmt va (sink m) in
  LOG_WRITE false (Some l) eModule ePriority (Some fmt) va m =
    Done tt
      (mkMachine (mem m) r.2
         (trace m ++ [EvAcquire l; EvSink (pvContext h) fmt va r.1; EvRelease l])).
Proof.
  intros Hl Hf H0 Hp Hm. apply LOG_WRITE_valid; try assumption.
  apply filtered_out_false. split; assumption.
Qed.

(** ** The masks *)



(** ** The build flag *)

(** C3, as the header has it: with [__INTEL_HEADERS_DISABLE_LOG__] defined,
    [LOG_WRITE] expands to nothing, for every handle pointer (even a bad
    one), module, priority and masks; [LOG_Write] is still there and calls
    the sink once; the decorated macros sit outside the conditional block,
    expand as in an enabled build, and a passing call still calls the sink
    three times. *)
Theorem C3_flag_disables_LOG_WRITE_only :
  (forall ptLog eModule ePriority pszFmt va m,
      LOG_WRITE true ptLog eModule ePriority pszFmt va m = Done tt m)
  /\ (forall m l h f fmt va,
      mem m !! l = Some h -> pfnLogWrite h = Some f ->
      sink_invocations m (run_call true (Some l) (CallWrite (Some fmt) va) m)
      = Some 1%nat)
  /\ (forall ptLog n eModule pszFmt va file line m,
      run_call true ptLog (CallDecorated n eModule pszFmt va file line) m
      = run_call false ptLog (CallDecorated n eModule pszFmt va file line) m)
  /\ (forall m l h f n eModule fmt va file line,
      mem m !! l = Some h -> pfnLogWrite h = Some f -> tLock h = 0 ->
      Z.land (ePriorityFilterMask h) (paste_LOG_PRIORITY n) <> 0 ->
      Z.land (eModulesFilterMask h) eModule <> 0 ->
      sink_invocations m
        (run_call true (Some l) (CallDecorated n eModule (Some fmt) va file line) m)
      = Some 3%nat).
Proof.
  split; [reflexivity |]. split; [| split; [reflexivity |]].
  - intros m l h f fmt va Hl Hf. simpl.
    erewrite bind_Done by (eapply LOG_Write_valid; eassumption).
    unfold ret, sink_invocations. rewrite new_events_app. reflexivity.
  - intros m l h f n eModule fmt va file line Hl Hf H0 Hp Hm. simpl.
    rewrite LOG_decorated_unfold.
    erewrite prefix_by_priority_valid; try eassumption.
    + unfold sink_invocations. rewrite new_events_app. reflexivity.
    + apply filtered_out_false. split; assumption.
Qed.

(** ** The frame *)

Lemma bind_inv {A B} (c : M A) (k : A -> M B) m b m' :
  bind c k m = Done b m' -> exists a m1, c m = Done a m1 /\ k a m1 = Done b m'.
Proof. unfold bind. destruct (c m); [eauto | discriminate ..]. Qed.

Lemma deref_inv p m h m' :
  deref p m = Done h m' -> m' = m /\ exists l, p = Some l /\ mem m !! l = Some h.
Proof.
  unfold deref. destruct p as [l |]; [| discriminate].
  destruct (mem m !! l) eqn:Hl; [| discriminate].
  intros [= -> ->]. eauto.
Qed.

Lemma assign_inv p g m u m' :
  assign p g m = Done u m' ->
  exists l h, p = Some l /\ mem m !! l = Some h
              /\ m' = mkMachine (<[l := g h]> (mem m)) (sink m) (trace m).
Proof.
  unfold assign. destruct p as [l |]; [| discriminate].
  destruct (mem m !! l) as [h |] eqn:Hl; [| discriminate].
  intros [= _ <-]. eauto.
Qed.

Lemma emit_inv e m u m' :
  emit e m = Done u m' -> m' = mkMachine (mem m) (sink m) (trace m ++ [e]).
Proof. unfold emit. intros [= _ <-]. reflexivity. Qed.

Lemma LOG_Write_mem p pszFmt va m b m' :
  LOG_Write p pszFmt va m = Done b m' -> mem m' = mem m.
Proof.
  unfold LOG_Write. destruct p as [l |], pszFmt as [fmt |];
    try (unfold ret; intros [= _ <-]; reflexivity).
  intros H. apply bind_inv in H as (h & m1 & Hd & H).
  apply deref_inv in Hd as [-> _].
  apply bind_inv in H as (b' & m2 & Hc & H).
  unfold ret in H. injection H as _ <-.
  unfold call_sink in Hc. destruct (pfnLogWrite h); [| discriminate].
  injection Hc as _ <-. reflexivity.
Qed.

Lemma LOCK_SpinlockAcquire_inv p m u m' :
  LOCK_SpinlockAcquire p m = Done u m' ->
  exists l h, p = Some l /\ mem m !! l = Some h /\ tLock h = 0
              /\ m' = mkMachine (<[l := set_tLock 1 h]> (mem m)) (sink m)
                        (trace m ++ [EvAcquire l]).
Proof.
  unfold LOCK_SpinlockAcquire. intros H.
  apply bind_inv in H as (h & m1 & Hd & H).
  apply deref_inv in Hd as [-> (l & -> & Hl)].
  destruct (Z.eqb_spec (tLock h) 0) as [H0 |]; [| discriminate].
  rewrite (bind_Done _ _ _ _ _ (assign_valid _ _ _ _ Hl)) in H.
  apply emit_inv in H. simpl in H. eauto 10.
Qed.

Lemma LOCK_SpinlockRelease_inv p m u m' :
  LOCK_SpinlockRelease p m = Done u m' ->
  exists l h, p = Some l /\ mem m !! l = Some h
              /\ m' = mkMachine (<[l := set_tLock 0 h]> (mem m)) (sink m)
                        (trace m ++ [EvRelease l]).
Proof.
  unfold LOCK_SpinlockRelease. intros H.
  apply bind_inv in H as ([] & m1 & Ha & H).
  apply assign_inv in Ha as (l & h & -> & Hl & ->).
  apply emit_inv in H. simpl in H. eauto 10.
Qed.

(** Acquire, then anything that leaves memory alone, then release: memory
    is as before. *)
Lemma guarded_mem p m u m1 m2 u' m' :
  LOCK_SpinlockAcquire p m = Done u m1 ->
  mem m2 = mem m1 ->
  LOCK_SpinlockRelease p m2 = Done u' m' ->
  mem m' = mem m.
Proof.
  intros Ha Hb Hr.
  apply LOCK_SpinlockAcquire_inv in Ha as (l & h & -> & Hl & H0 & ->).
  apply LOCK_SpinlockRelease_inv in Hr as (l' & h' & [= <-] & Hl' & ->).
  simpl in *. rewrite Hb in Hl' |- *.
  rewrite lookup_insert_eq in Hl'. injection Hl' as <-.
  apply mem_restored; assumption.
Qed.

Lemma LOG_WRITE_mem disable_log p eModule ePriority pszFmt va m u m' :
  LOG_WRITE disable_log p eModule ePriority pszFmt va m = Done u m' ->
  mem m' = mem m.
Proof.
  unfold LOG_WRITE. destruct disable_log; [intros [= _ <-]; reflexivity |].
  intros H. apply bind_inv in H as (h & m0 & Hd & H).
  apply deref_inv in Hd as [-> _].
  destruct (filtered_out h eModule ePriority); [injection H as _ <-; reflexivity |].
  apply bind_inv in H as (u1 & m1 & Ha & H).
  apply bind_inv in H as (b & m2 & Hw & Hr).
  eapply guarded_mem; [exact Ha | | exact Hr].
  eapply LOG_Write_mem, Hw.
Qed.

Lemma prefix_by_priority_mem p eModule n pszFmt va file line m u m' :
  __LOG_PREFIX_BY_PRIORITY p eModule n pszFmt va file line m = Done u m' ->
  mem m' = mem m.
Proof.
  unfold __LOG_PREFIX_BY_PRIORITY.
  intros H. apply bind_inv in H as (h & m0 & Hd & H).
  apply deref_inv in Hd as [-> _].
  destruct (filtered_out h eModule _); [injection H as _ <-; reflexivity |].
  apply bind_inv in H as (u1 & m1 & Ha & H).
  apply bind_inv in H as (b1 & m2 & Hw1 & H).
  apply bind_inv in H as (b2 & m3 & Hw2 & H).
  apply bind_inv in H as (b3 & m4 & Hw3 & Hr).
  eapply guarded_mem; [exact Ha | | exact Hr].
  apply LOG_Write_mem in Hw1, Hw2, Hw3. congruence.
Qed.

(** On a handle that holds a sink and whose lock is free, every call
    completes. *)
Lemma run_call_completes disable_log l h f c m :
  mem m !! l = Some h -> pfnLogWrite h = Some f -> tLock h = 0 ->
  exists m', run_call disable_log (Some l) c m = Done tt m'.
Proof.
  intros Hl Hf H0. destruct c as [pszFmt va | eModule ePriority pszFmt va
                                 | n eModule pszFmt va file line]; simpl.
  - destruct pszFmt as [fmt |]; [| eexists; reflexivity].
    erewrite bind_Done by (eapply LOG_Write_valid; eassumption).
    eexists. reflexivity.
  - destruct disable_log; [eexists; reflexivity |].
    destruct (filtered_out h eModule ePriority) eqn:Hflt.
    + unfold LOG_WRITE.
      rewrite (bind_Done _ _ _ _ _ (deref_valid _ _ _ Hl)), Hflt.
      eexists. reflexivity.
    + destruct pszFmt as [fmt |]; eexists.
      * eapply LOG_WRITE_valid; eassumption.
      * eapply LOG_WRITE_null_fmt; eassumption.
  - rewrite LOG_decorated_unfold.
    destruct (filtered_out h eModule (paste_LOG_PRIORITY n)) eqn:Hflt.
    + unfold __LOG_PREFIX_BY_PRIORITY.
      rewrite (bind_Done _ _ _ _ _ (deref_valid _ _ _ Hl)), Hflt.
      eexists. reflexivity.
    + destruct pszFmt as [fmt |]; eexists.
      * eapply prefix_by_priority_valid; eassumption.
      * eapply prefix_by_priority_null_fmt; eassumption.
Qed.

(** C10: when a call of [LOG_Write], of [LOG_WRITE] or of a decorated macro
    completes, memory is what it was: the handle the call went through has
    its sink, context and masks as before and its lock cell holds what it
    held on entry (0 whenever the lock was taken), and no other handle
    changed.  On a handle that holds a sink and whose lock is free every
    such call does complete.  [LOG_InitHandle] is the function that writes
    the fields. *)
Theorem C10_logging_calls_leave_handles_unchanged :
  (forall disable_log ptLog c m m',
      run_call disable_log ptLog c m = Done tt m' -> mem m' = mem m)
  /\ (forall disable_log l h f c m,
      mem m !! l = Some h -> pfnLogWrite h = Some f -> tLock h = 0 ->
      exists m', run_call disable_log (Some l) c m = Done tt m'
                 /\ mem m' !! l = Some h)
  /\ (forall m l h0 f ctx eModules ePriority,
      mem m !! l = Some h0 ->
      exists m',
        LOG_InitHandle (Some l) (Some f) ctx eModules ePriority m = Done TRUE m'
        /\ mem m' !! l = Some (mkLOG_HANDLE (Some f) ctx ePriority eModules 0)).
Proof.
  assert (Hframe : forall disable_log ptLog c m m',
             run_call disable_log ptLog c m = Done tt m' -> mem m' = mem m).
  { intros disable_log ptLog c m m' H. destruct c; simpl in H.
    - apply bind_inv in H as (b & m1 & Hw & H).
      injection H as <-. eapply LOG_Write_mem, Hw.
    - eapply LOG_WRITE_mem, H.
    - rewrite LOG_decorated_unfold in H. eapply prefix_by_priority_mem, H. }
  split; [exact Hframe |]. split.
  - intros disable_log l h f c m Hl Hf H0.
    destruct (run_call_completes disable_log l h f c m Hl Hf H0) as [m' Hrun].
    exists m'. split; [exact Hrun |].
    rewrite (Hframe _ _ _ _ _ Hrun). exact Hl.
  - intros m l h0 f ctx eModules ePriority Hl. eexists. split.
    + apply (LOG_InitHandle_valid _ _ _ h0), Hl.
    + simpl. apply lookup_insert_eq.
Qed.

(** ** Several threads on one handle *)

Lemma bind_assoc {A B C} (c : M A) (k : A -> M B) (k' : B -> M C) m :
  bind (bind c k) k' m = bind c (fun a => bind (k a) k') m.
Proof. unfold bind. destruct (c m); reflexivity. Qed.

Lemma bind_ext {A B} (c : M A) (k k' : A -> M B) m :
  (forall a m', k a m' = k' a m') -> bind c k m = bind c k' m.
Proof. intros H. unfold bind. destruct (c m); [apply H | reflexivity ..]. Qed.

Lemma bind_ret_tt (c : M unit) m : bind c (fun _ => ret tt) m = c m.
Proof. unfold bind, ret. destruct (c m) as [[] m' | |]; reflexivity. Qed.

Ltac next_step ptLog c p n :=
  match goal with
  | |- _ ?m = ?rhs =>
      change (bind (step_at ptLog c p) (run_steps n ptLog c) m = rhs)
  end;
  unfold step_at at 1; rewrite bind_assoc; apply bind_ext; intros ? ?.

(** One thread that takes its steps in a row does what the macro does. *)
Lemma run_steps_macro ptLog c m :
  run_steps 6 ptLog c AtFilter m =
  __LOG_PREFIX_BY_PRIORITY ptLog (dc_module c) (dc_name c) (dc_fmt c) (dc_va c)
    (dc_file c) (dc_line c) m.
Proof.
  unfold __LOG_PREFIX_BY_PRIORITY.
  next_step ptLog c AtFilter 5%nat.
  destruct (filtered_out _ _ _); [reflexivity |].
  next_step ptLog c AtAcquire 4%nat.
  next_step ptLog c AtPrefix 3%nat.
  next_step ptLog c AtBody 2%nat.
  next_step ptLog c AtSuffix 1%nat.
  match goal with
  | |- _ ?m = ?rhs =>
      change (bind (step_at ptLog c AtRelease) (run_steps 0 ptLog c) m = rhs)
  end.
  unfold step_at. rewrite bind_assoc. apply bind_ret_tt.
Qed.

Lemma guard_run_app g lg1 lg2 :
  guard_run g (lg1 ++ lg2) =
  match guard_run g lg1 with
  | Some g' => guard_run g' lg2
  | None => None
  end.
Proof.
  revert g. induction lg1 as [| en lg1 IH]; intros g; simpl.
  - reflexivity.
  - destruct (guard_step g en); [apply IH | reflexivity].
Qed.

Lemma guard_run_snoc g0 lg g en g' :
  guard_run g0 lg = Some g ->
  guard_step g en = Some g' ->
  guard_run g0 (lg ++ [en]) = Some g'.
Proof.
  intros Hrun Hstep. rewrite guard_run_app, Hrun. simpl. rewrite Hstep. reflexivity.
Qed.

Lemma guard_step_sink g t k e g' :
  is_sink_event e = true ->
  guard_step g (mkEntry t k e) = Some g' ->
  holder g = Some (t, k) /\ g' = g.
Proof.
  destruct e; try discriminate. intros _. unfold guard_step. simpl.
  case_decide; [| discriminate]. intros [= <-]. auto.
Qed.

(** The call numbers a thread has released only grow. *)
Lemma guard_step_mono g en g' t :
  guard_step g en = Some g' -> (next_call g t <= next_call g' t)%nat.
Proof.
  unfold guard_step. destruct (en_event en).
  - destruct (holder g); [discriminate |].
    case_decide; [| discriminate]. intros [= <-]. reflexivity.
  - case_decide; [| discriminate]. intros [= <-]. simpl.
    case_decide; lia.
  - case_decide; [| discriminate]. intros [= <-]. reflexivity.
Qed.

Lemma guard_run_mono lg g g' t :
  guard_run g lg = Some g' -> (next_call g t <= next_call g' t)%nat.
Proof.
  revert g. induction lg as [| en lg IH]; intros g; simpl.
  - intros [= <-]. reflexivity.
  - destruct (guard_step g en) as [g1 |] eqn:Hstep; [| discriminate].
    intros Hrun. etransitivity; [eapply guard_step_mono, Hstep | apply IH, Hrun].
Qed.

(** When message [(b, k)] holds the guard and later does not, it has been
    released in between. *)
Lemma guard_run_lost b k lg g g' :
  guard_run g lg = Some g' ->
  holder g = Some (b, k) ->
  holder g' <> Some (b, k) ->
  (k < next_call g' b)%nat.
Proof.
  revert g. induction lg as [| [t j e] lg IH]; intros g; simpl.
  - intros [= <-] H1 H2. contradiction.
  - destruct (guard_step g (mkEntry t j e)) as [g1 |] eqn:Hstep; [| discriminate].
    intros Hrun Hheld Hlost. revert Hstep. unfold guard_step. simpl.
    destruct e as [l | l | ctx fmt va r].
    + rewrite Hheld. discriminate.
    + case_decide as Hmsg; [| discriminate]. intros [= <-].
      rewrite Hheld in Hmsg. injection Hmsg as <- <-.
      apply (guard_run_mono _ _ _ b) in Hrun. simpl in Hrun.
      rewrite decide_True in Hrun by reflexivity. lia.
    + case_decide; [| discriminate]. intros [= <-].
      apply (IH g); assumption.
Qed.

(** When message [(b, k)] holds the guard and did not before, thread [b]
    had not released the guard for call [k] before. *)
Lemma guard_run_won b k lg g g' :
  guard_run g lg = Some g' ->
  holder g <> Some (b, k) ->
  holder g' = Some (b, k) ->
  (next_call g b <= k)%nat.
Proof.
  revert g. induction lg as [| [t j e] lg IH]; intros g; simpl.
  - intros [= <-] H1 H2. contradiction.
  - destruct (guard_step g (mkEntry t j e)) as [g1 |] eqn:Hstep; [| discriminate].
    intros Hrun Hnot Hheld.
    destruct (decide (holder g1 = Some (b, k))) as [Hg1 | Hg1].
    + revert Hstep. unfold guard_step. simpl.
      destruct e as [l | l | ctx fmt va r].
      * destruct (holder g); [discriminate |].
        case_decide as Hle; [| discriminate]. intros [= <-].
        simpl in Hg1. injection Hg1 as -> ->. exact Hle.
      * case_decide; [| discriminate]. intros [= <-]. discriminate.
      * case_decide; [| discriminate]. intros [= <-]. contradiction.
    + etransitivity; [eapply guard_step_mono, Hstep |].
      eapply IH; eassumption.
Qed.

(** What one raw write adds to the trace: nothing, or one sink call. *)
Lemma LOG_Write_events p pszFmt va m b m' :
  LOG_Write p pszFmt va m = Done b m' ->
  mem m' = mem m
  /\ (new_events m m' = []
      \/ exists ctx fmt r,
          pszFmt = Some fmt /\ new_events m m' = [EvSink ctx fmt va r]).
Proof.
  intros H. split; [eapply LOG_Write_mem, H |]. revert H.
  unfold LOG_Write. destruct p as [l |], pszFmt as [fmt |];
    try (unfold ret; intros [= _ <-]; left; apply new_events_same).
  intros H. apply bind_inv in H as (h & m1 & Hd & H).
  apply deref_inv in Hd as [-> _].
  apply bind_inv in H as (b' & m2 & Hc & H).
  unfold ret in H. injection H as _ <-.
  unfold call_sink in Hc. destruct (pfnLogWrite h) as [f |]; [| discriminate].
  injection Hc as _ <-. right. rewrite new_events_app. eauto 10.
Qed.

Lemma guard_inv_init l m progs : guard_inv l (init_config m progs).
Proof.
  exists guard_start. split; [reflexivity |]. split; [| reflexivity].
  intros t th Hth. simpl in Hth.
  apply list_lookup_fmap_Some in Hth as (cs & -> & _).
  repeat split; simpl; (lia || discriminate).
Qed.

(** The threads' part of the invariant after thread [t] moved. *)
Lemma threads_after_step (ths : list thread) t th th' (g g' : guard_state) :
  ths !! t = Some th ->
  (forall t' th0, ths !! t' = Some th0 -> thread_ok g t' th0) ->
  thread_ok g' t th' ->
  (forall t' th0, t' <> t -> thread_ok g t' th0 ->
                  thread_ok g' t' th0) ->
  forall t' th0, <[t := th']> ths !! t' = Some th0 ->
                 thread_ok g' t' th0.
Proof.
  intros Ht Hold Hnew Hothers t' th0 Hlk.
  destruct (decide (t' = t)) as [-> | Hne].
  - rewrite list_lookup_insert_eq in Hlk by (eapply lookup_lt_Some, Ht).
    injection Hlk as <-. exact Hnew.
  - rewrite list_lookup_insert_ne in Hlk by congruence.
    apply Hothers; [exact Hne |]. eapply Hold, Hlk.
Qed.

(** A step of a thread that is outside the guard, adds nothing to the log
    and stays outside the guard. *)
Lemma guard_inv_outside l t (cfg : @config SinkSt) p k c rest p' k' cs' g :
  threads cfg !! t = Some (mkThread p k (c :: rest)) ->
  in_guard p = false -> in_guard p' = false -> (k <= k')%nat ->
  guard_run guard_start (log cfg) = Some g ->
  (forall t' th0, threads cfg !! t' = Some th0 -> thread_ok g t' th0) ->
  (forall h, mem (shared cfg) !! l = Some h -> tLock h = 0 -> holder g = None) ->
  guard_inv l
    (mkConfig (shared cfg) (<[t := mkThread p' k' cs']> (threads cfg))
       (log cfg ++ map (mkEntry t k) (new_events (shared cfg) (shared cfg)))).
Proof.
  intros Ht Hp Hp' Hk Hrun Hths Hlock.
  exists g. simpl. rewrite new_events_same, app_nil_r.
  split; [exact Hrun |]. split; [| exact Hlock].
  eapply threads_after_step; [exact Ht | exact Hths | | auto].
  destruct (Hths _ _ Ht) as (Hle & _ & Hin). simpl in *.
  repeat split; simpl.
  - lia.
  - rewrite Hp'. discriminate.
  - intros j Hj. apply Hin in Hj. congruence.
Qed.

(** A raw write by the thread whose call holds the guard. *)
Lemma guard_inv_write l t (cfg : @config SinkSt) p k c rest p' pszFmt va b m' g :
  threads cfg !! t = Some (mkThread p k (c :: rest)) ->
  in_guard p = true -> in_guard p' = true ->
  LOG_Write (Some l) pszFmt va (shared cfg) = Done b m' ->
  guard_run guard_start (log cfg) = Some g ->
  (forall t' th0, threads cfg !! t' = Some th0 -> thread_ok g t' th0) ->
  (forall h, mem (shared cfg) !! l = Some h -> tLock h = 0 -> holder g = None) ->
  guard_inv l
    (mkConfig m' (<[t := mkThread p' k (c :: rest)]> (threads cfg))
       (log cfg ++ map (mkEntry t k) (new_events (shared cfg) m'))).
Proof.
  intros Ht Hp Hp' Hw Hrun Hths Hlock.
  apply LOG_Write_events in Hw as [Hmem Hev].
  destruct (Hths _ _ Ht) as (Hle & Hin & Hheld). simpl in *.
  specialize (Hin Hp).
  exists g. simpl. split; [| split].
  - destruct Hev as [-> | (ctx & fmt & r & _ & ->)]; simpl.
    + rewrite app_nil_r. exact Hrun.
    + eapply guard_run_snoc; [exact Hrun |].
      unfold guard_step. simpl. rewrite decide_True by exact Hin. reflexivity.
  - eapply threads_after_step; [exact Ht | exact Hths | | auto].
    repeat split; simpl; auto.
  - rewrite Hmem. exact Hlock.
Qed.

(** A scheduled step keeps the invariant. *)
Lemma guard_inv_step l t (cfg : @config SinkSt) :
  guard_inv l cfg -> guard_inv l (sched_step (Some l) t cfg).
Proof.
  intros Hinv. unfold sched_step.
  destruct (threads cfg !! t) as [[p k [| c rest]] |] eqn:Ht; try exact Hinv.
  destruct (step_at (Some l) c p (shared cfg)) as [p' m' | |] eqn:Hstep;
    try exact Hinv.
  destruct Hinv as (g & Hrun & Hths & Hlock).
  destruct p; unfold step_at in Hstep.
  - (* the filter test *)
    apply bind_inv in Hstep as (h & m1 & Hd & H).
    apply deref_inv in Hd as [-> _]. unfold ret in H.
    destruct (filtered_out _ _ _); injection H as <- <-;
      (eapply guard_inv_outside; [exact Ht | | | | exact Hrun | exact Hths | exact Hlock];
       (reflexivity || lia)).
  - (* acquire *)
    apply bind_inv in Hstep as (u & m1 & Ha & H).
    unfold ret in H. injection H as <- <-.
    apply LOCK_SpinlockAcquire_inv in Ha as (l' & h & [= <-] & Hl & H0 & ->).
    assert (Hfree : holder g = None) by (eapply Hlock; eassumption).
    destruct (Hths _ _ Ht) as (Hle & _ & _). simpl in Hle.
    exists (mkGuard (Some (t, k)) (next_call g)). rewrite new_events_app. simpl.
    split; [| split].
    + eapply guard_run_snoc; [exact Hrun |].
      unfold guard_step. simpl. rewrite Hfree, decide_True by exact Hle.
      reflexivity.
    + eapply threads_after_step; [exact Ht | exact Hths | |].
      * repeat split; simpl; auto.
      * intros t' th0 Hne (Hle' & Hin' & Hheld'). repeat split; simpl.
        -- exact Hle'.
        -- intros Hg. apply Hin' in Hg. congruence.
        -- intros j [= Heq _]. congruence.
    + intros h'. rewrite lookup_insert_eq. intros [= <-]. discriminate.
  - (* the prefix *)
    apply bind_inv in Hstep as (b & m1 & Hw & H).
    unfold ret in H. injection H as <- <-.
    eapply guard_inv_write; eauto.
  - (* the body *)
    apply bind_inv in Hstep as (b & m1 & Hw & H).
    unfold ret in H. injection H as <- <-.
    eapply guard_inv_write; eauto.
  - (* the suffix *)
    apply bind_inv in Hstep as (b & m1 & Hw & H).
    unfold ret in H. injection H as <- <-.
    eapply guard_inv_write; eauto.
  - (* release *)
    apply bind_inv in Hstep as (u & m1 & Hr & H).
    unfold ret in H. injection H as <- <-.
    apply LOCK_SpinlockRelease_inv in Hr as (l' & h & [= <-] & Hl & ->).
    destruct (Hths _ _ Ht) as (Hle & Hin & _). simpl in Hle, Hin.
    specialize (Hin eq_refl).
    eexists. rewrite new_events_app. simpl.
    split; [| split].
    + eapply guard_run_snoc; [exact Hrun |].
      unfold guard_step. simpl. rewrite decide_True by exact Hin. reflexivity.
    + eapply threads_after_step; [exact Ht | exact Hths | |].
      * repeat split; simpl; try discriminate.
        rewrite decide_True by reflexivity. lia.
      * intros t' th0 Hne (Hle' & Hin' & Hheld'). repeat split; simpl.
        -- rewrite decide_False by exact Hne. exact Hle'.
        -- intros Hg. apply Hin' in Hg. congruence.
        -- discriminate.
    + reflexivity.
  - (* past the end *)
    unfold ret in Hstep. injection Hstep as <- <-.
    eapply guard_inv_outside; [exact Ht | | | | exact Hrun | exact Hths | exact Hlock];
      (reflexivity || lia).
Qed.

Lemma guard_inv_run l s (cfg : @config SinkSt) :
  guard_inv l cfg -> guard_inv l (run_schedule (Some l) s cfg).
Proof.
  unfold run_schedule. revert cfg.
  induction s as [| t s IH]; intros cfg Hinv; simpl.
  - exact Hinv.
  - apply IH, guard_inv_step, Hinv.
Qed.

(** What a step of the call [c] adds to the trace is a request of [c]. *)
Lemma step_at_events ptLog c p m p' m' e :
  step_at ptLog c p m = Done p' m' ->
  In e (new_events m m') -> part_of c e.
Proof.
  destruct p; unfold step_at; intros Hstep Hin.
  - apply bind_inv in Hstep as (h & m1 & Hd & H).
    apply deref_inv in Hd as [-> _]. unfold ret in H.
    destruct (filtered_out _ _ _); injection H as _ <-;
      rewrite new_events_same in Hin; destruct Hin.
  - apply bind_inv in Hstep as (u & m1 & Ha & H).
    unfold ret in H. injection H as _ <-.
    apply LOCK_SpinlockAcquire_inv in Ha as (l & h & _ & _ & _ & ->).
    rewrite new_events_app in Hin. destruct Hin as [<- | []]. exact I.
  - apply bind_inv in Hstep as (b & m1 & Hw & H).
    unfold ret in H. injection H as _ <-.
    apply LOG_Write_events in Hw as [_ [Hev | (ctx & fmt & r & [= <-] & Hev)]];
      rewrite Hev in Hin; [destruct Hin | destruct Hin as [<- | []]].
    left. auto.
  - apply bind_inv in Hstep as (b & m1 & Hw & H).
    unfold ret in H. injection H as _ <-.
    apply LOG_Write_events in Hw as [_ [Hev | (ctx & fmt & r & Hfmt & Hev)]];
      rewrite Hev in Hin; [destruct Hin | destruct Hin as [<- | []]].
    right. left. auto.
  - apply bind_inv in Hstep as (b & m1 & Hw & H).
    unfold ret in H. injection H as _ <-.
    apply LOG_Write_events in Hw as [_ [Hev | (ctx & fmt & r & [= <-] & Hev)]];
      rewrite Hev in Hin; [destruct Hin | destruct Hin as [<- | []]].
    right. right. auto.
  - apply bind_inv in Hstep as (u & m1 & Hr & H).
    unfold ret in H. injection H as _ <-.
    apply LOCK_SpinlockRelease_inv in Hr as (l & h & _ & _ & ->).
    rewrite new_events_app in Hin. destruct Hin as [<- | []]. exact I.
  - unfold ret in Hstep. injection Hstep as _ <-.
    rewrite new_events_same in Hin. destruct Hin.
Qed.

Lemma drop_cons_inv {A} (cs : list A) k c rest :
  c :: rest = drop k cs -> cs !! k = Some c /\ rest = drop (S k) cs.
Proof.
  intros Hdrop.
  assert (Hk : cs !! k = Some c).
  { rewrite <- (Nat.add_0_r k), <- lookup_drop, <- Hdrop. reflexivity. }
  split; [exact Hk |].
  rewrite (drop_S _ _ _ Hk) in Hdrop. injection Hdrop as <-. reflexivity.
Qed.

Lemma prog_inv_init (m : @machine SinkSt) progs : prog_inv progs (init_config m progs).
Proof.
  split.
  - intros t th Hth. simpl in Hth.
    apply list_lookup_fmap_Some in Hth as (cs & -> & Hcs).
    exists cs. split; [exact Hcs | reflexivity].
  - intros en [].
Qed.

Lemma prog_inv_step progs ptLog t (cfg : @config SinkSt) :
  prog_inv progs cfg -> prog_inv progs (sched_step ptLog t cfg).
Proof.
  intros Hinv. unfold sched_step.
  destruct (threads cfg !! t) as [[p k [| c rest]] |] eqn:Ht; try exact Hinv.
  destruct (step_at ptLog c p (shared cfg)) as [p' m' | |] eqn:Hstep;
    try exact Hinv.
  destruct Hinv as [Hths Hlog].
  destruct (Hths _ _ Ht) as (cs & Hcs & Htodo). simpl in Htodo.
  apply drop_cons_inv in Htodo as [Hc Hrest].
  split; simpl.
  - intros t' th0 Hlk. destruct (decide (t' = t)) as [-> | Hne].
    + rewrite list_lookup_insert_eq in Hlk by (eapply lookup_lt_Some, Ht).
      exists cs. split; [exact Hcs |].
      destruct p'; injection Hlk as <-; simpl;
        first [exact Hrest | rewrite Hrest; symmetry; apply drop_S, Hc].
    + rewrite list_lookup_insert_ne in Hlk by congruence. eapply Hths, Hlk.
  - intros en Hin. apply in_app_or in Hin as [Hin | Hin]; [apply Hlog, Hin |].
    apply in_map_iff in Hin as (e & <- & He). simpl.
    exists cs, c. split; [exact Hcs |]. split; [exact Hc |].
    eapply step_at_events; eassumption.
Qed.

Lemma prog_inv_run progs ptLog s (cfg : @config SinkSt) :
  prog_inv progs cfg -> prog_inv progs (run_schedule ptLog s cfg).
Proof.
  unfold run_schedule. revert cfg.
  induction s as [| t s IH]; intros cfg Hinv; simpl.
  - exact Hinv.
  - apply IH, prog_inv_step, Hinv.
Qed.

(** C8: threads that make decorated calls on the handle at [l], run under
    any schedule from a start where each is at the beginning of its calls.
    The log of requests respects the guard: an acquire happens only when
    nobody holds the guard, and every sink call and every release is made
    for the message that holds it.  At most one thread is between its
    acquire and its release.  And between two sink calls of one message
    (thread [b], call number [k]) every sink call is of that same message:
    no sink call of another thread, or of another call, comes between the
    parts of a message.  The sink calls of message [(t, k)] carry the
    prefix, the body or the suffix of the [k]-th call of thread [t]. *)
Theorem C8_decorated_messages_do_not_interleave
    (m : @machine SinkSt) l (progs : list (list decorated_call)) (s : list nat) :
  let cfg := run_schedule (Some l) s (init_config m progs) in
  (exists g, guard_run guard_start (log cfg) = Some g)
  /\ (forall t1 t2 th1 th2,
      threads cfg !! t1 = Some th1 -> threads cfg !! t2 = Some th2 ->
      in_guard (th_pc th1) = true -> in_guard (th_pc th2) = true -> t1 = t2)
  /\ (forall b k a j e1 e e2 lg1 lg2 lg3 lg4,
      log cfg = lg1 ++ mkEntry b k e1 :: lg2 ++ mkEntry a j e :: lg3
                    ++ mkEntry b k e2 :: lg4 ->
      is_sink_event e1 = true -> is_sink_event e = true ->
      is_sink_event e2 = true ->
      a = b /\ j = k)
  /\ (forall en, In en (log cfg) ->
      exists cs c, progs !! en_thread en = Some cs
                   /\ cs !! en_call en = Some c
                   /\ part_of c (en_event en)).
Proof.
  intros cfg.
  destruct (guard_inv_run l s _ (guard_inv_init l m progs))
    as (g & Hrun & Hths & _).
  destruct (prog_inv_run progs (Some l) s _ (prog_inv_init m progs))
    as [_ Hparts].
  fold cfg in Hrun, Hths, Hparts.
  split; [eauto |]. split; [| split; [| exact Hparts]].
  - intros t1 t2 th1 th2 H1 H2 G1 G2.
    apply (Hths _ _ H1) in G1. apply (Hths _ _ H2) in G2. congruence.
  - intros b k a j e1 e e2 lg1 lg2 lg3 lg4 Hlog S1 S S2.
    rewrite Hlog in Hrun. rewrite guard_run_app in Hrun.
    destruct (guard_run guard_start lg1) as [g1 |]; [| discriminate].
    simpl in Hrun.
    destruct (guard_step g1 (mkEntry b k e1)) as [g1' |] eqn:E1; [| discriminate].
    apply (guard_step_sink _ _ _ _ _ S1) in E1 as [Hh1 ->].
    rewrite guard_run_app in Hrun.
    destruct (guard_run g1 lg2) as [g2 |] eqn:R2; [| discriminate].
    simpl in Hrun.
    destruct (guard_step g2 (mkEntry a j e)) as [g2' |] eqn:E; [| discriminate].
    apply (guard_step_sink _ _ _ _ _ S) in E as [Hh2 ->].
    rewrite guard_run_app in Hrun.
    destruct (guard_run g2 lg3) as [g3 |] eqn:R3; [| discriminate].
    simpl in Hrun.
    destruct (guard_step g3 (mkEntry b k e2)) as [g3' |] eqn:E2; [| discriminate].
    apply (guard_step_sink _ _ _ _ _ S2) in E2 as [Hh3 _].
    destruct (decide ((a, j) = (b, k))) as [[= -> ->] | Hne]; [auto |].
    exfalso.
    assert (Hlost : (k < next_call g2 b)%nat).
    { eapply guard_run_lost; [exact R2 | exact Hh1 | congruence]. }
    assert (Hwon : (next_call g2 b <= k)%nat).
    { eapply guard_run_won; [exact R3 | congruence | exact Hh3]. }
    lia.
Qed.

(** * Further properties of the header *)

(** ** Outcomes of the operations, case by case *)

Lemma bind_Fault {A B} (c : M A) (k : A -> M B) m e :
  c m = Fault e -> bind c k m = Fault e.
Proof. unfold bind. intros ->. reflexivity. Qed.

Lemma bind_Hang {A B} (c : M A) (k : A -> M B) m :
  c m = Hang -> bind c k m = Hang.
Proof. unfold bind. intros ->. reflexivity. Qed.

Lemma deref_invalid m p :
  p = None \/ (exists l, p = Some l /\ mem m !! l = None) ->
  deref p m = Fault BadPointer.
Proof.
  intros [-> | (l & -> & Hl)]; unfold deref; [| rewrite Hl]; reflexivity.
Qed.

Lemma LOG_Write_dangling m l fmt va :
  mem m !! l = None -> LOG_Write (Some l) (Some fmt) va m = Fault BadPointer.
Proof.
  intros Hl. unfold LOG_Write. apply bind_Fault, deref_invalid. eauto.
Qed.

Lemma LOG_Write_no_sink m l h fmt va :
  mem m !! l = Some h -> pfnLogWrite h = None ->
  LOG_Write (Some l) (Some fmt) va m = Fault NullCall.
Proof.
  intros Hl Hf. unfold LOG_Write.
  rewrite (bind_Done _ _ _ _ _ (deref_valid _ _ _ Hl)).
  unfold bind, call_sink. rewrite Hf. reflexivity.
Qed.

Lemma LOG_WRITE_invalid m p eModule ePriority pszFmt va :
  p = None \/ (exists l, p = Some l /\ mem m !! l = None) ->
  LOG_WRITE false p eModule ePriority pszFmt va m = Fault BadPointer.
Proof. intros H. unfold LOG_WRITE. apply bind_Fault, deref_invalid, H. Qed.

Lemma LOG_WRITE_filtered m l h eModule ePriority pszFmt va :
  mem m !! l = Some h -> filtered_out h eModule ePriority = true ->
  LOG_WRITE false (Some l) eModule ePriority pszFmt va m = Done tt m.
Proof.
  intros Hl Hflt. unfold LOG_WRITE.
  rewrite (bind_Done _ _ _ _ _ (deref_valid _ _ _ Hl)), Hflt. reflexivity.
Qed.

Lemma LOG_WRITE_held m l h eModule ePriority pszFmt va :
  mem m !! l = Some h -> filtered_out h eModule ePriority = false ->
  tLock h <> 0 ->
  LOG_WRITE false (Some l) eModule ePriority pszFmt va m = Hang.
Proof.
  intros Hl Hflt Hheld. unfold LOG_WRITE.
  rewrite (bind_Done _ _ _ _ _ (deref_valid _ _ _ Hl)), Hflt.
  apply bind_Hang. eapply LOCK_SpinlockAcquire_held; eassumption.
Qed.

Lemma LOG_WRITE_no_sink m l h eModule ePriority fmt va :
  mem m !! l = Some h -> filtered_out h eModule ePriority = false ->
  tLock h = 0 -> pfnLogWrite h = None ->
  LOG_WRITE false (Some l) eModule ePriority (Some fmt) va m = Fault NullCall.
Proof.
  intros Hl Hflt H0 Hf. unfold LOG_WRITE.
  rewrite (bind_Done _ _ _ _ _ (deref_valid _ _ _ Hl)), Hflt.
  rewrite (bind_Done _ _ _ _ _ (LOCK_SpinlockAcquire_free _ _ _ Hl H0)).
  apply bind_Fault. eapply LOG_Write_no_sink; simpl.
  - apply lookup_insert_eq.
  - exact Hf.
Qed.

Lemma prefix_by_priority_invalid m p eModule n pszFmt va file line :
  p = None \/ (exists l, p = Some l /\ mem m !! l = None) ->
  __LOG_PREFIX_BY_PRIORITY p eModule n pszFmt va file line m = Fault BadPointer.
Proof.
  intros H. unfold __LOG_PREFIX_BY_PRIORITY. apply bind_Fault, deref_invalid, H.
Qed.

Lemma prefix_by_priority_filtered m l h eModule n pszFmt va file line :
  mem m !! l = Some h -> filtered_out h eModule (paste_LOG_PRIORITY n) = true ->
  __LOG_PREFIX_BY_PRIORITY (Some l) eModule n pszFmt va file line m = Done tt m.
Proof.
  intros Hl Hflt. unfold __LOG_PREFIX_BY_PRIORITY.
  rewrite (bind_Done _ _ _ _ _ (deref_valid _ _ _ Hl)), Hflt. reflexivity.
Qed.

Lemma prefix_by_priority_held m l h eModule n pszFmt va file line :
  mem m !! l = Some h -> filtered_out h eModule (paste_LOG_PRIORITY n) = false ->
  tLock h <> 0 ->
  __LOG_PREFIX_BY_PRIORITY (Some l) eModule n pszFmt va file line m = Hang.
Proof.
  intros Hl Hflt Hheld. unfold __LOG_PREFIX_BY_PRIORITY.
  rewrite (bind_Done _ _ _ _ _ (deref_valid _ _ _ Hl)), Hflt.
  apply bind_Hang. eapply LOCK_SpinlockAcquire_held; eassumption.
Qed.

Lemma prefix_by_priority_no_sink m l h eModule n pszFmt va file line :
  mem m !! l = Some h -> filtered_out h eModule (paste_LOG_PRIORITY n) = false ->
  tLock h = 0 -> pfnLogWrite h = None ->
  __LOG_PREFIX_BY_PRIORITY (Some l) eModule n pszFmt va file line m
  = Fault NullCall.
Proof.
  intros Hl Hflt H0 Hf. unfold __LOG_PREFIX_BY_PRIORITY.
  rewrite (bind_Done _ _ _ _ _ (deref_valid _ _ _ Hl)), Hflt.
  rewrite (bind_Done _ _ _ _ _ (LOCK_SpinlockAcquire_free _ _ _ Hl H0)).
  apply bind_Fault. eapply LOG_Write_no_sink; simpl.
  - apply lookup_insert_eq.
  - exact Hf.
Qed.

(** X1: a decorated call with a null format, on a handle that lets it
    through: the body write returns before it reaches the sink, so the
    sink is called twice, with the prefix and with the suffix, between
    acquire and release; memory ends as it was. *)
Theorem X1_decorated_null_format_writes_prefix_and_suffix
    m l h f n eModule va file line :
  mem m !! l = Some h -> pfnLogWrite h = Some f -> tLock h = 0 ->
  Z.land (ePriorityFilterMask h) (paste_LOG_PRIORITY n) <> 0 ->
  Z.land (eModulesFilterMask h) eModule <> 0 ->
  let ctx := pvContext h in
  let r1 := f ctx (prefix_fmt n) [VaStr file; VaInt line] (sink m) in
  let r3 := f ctx suffix_fmt [] r1.2 in
  LOG_decorated n (Some l) eModule None va file line m =
    Done tt
      (mkMachine (mem m) r3.2
         (trace m ++ [EvAcquire l;
                      EvSink ctx (prefix_fmt n) [VaStr file; VaInt line] r1.1;
                      EvSink ctx suffix_fmt [] r3.1;
                      EvRelease l])).
Proof.
  intros Hl Hf H0 Hp Hm. simpl. rewrite LOG_decorated_unfold.
  apply prefix_by_priority_null_fmt; try assumption.
  apply filtered_out_false. split; assumption.
Qed.

(** X2: [LOG_WRITE] with a null format, on a handle that lets it through:
    the lock is taken and released and the sink is not called.  The sink
    pointer of the handle is not used, so this also holds of a handle whose
    sink is null. *)
Theorem X2_LOG_WRITE_null_format_only_locks m l h eModule ePriority va :
  mem m !! l = Some h -> tLock h = 0 ->
  Z.land (ePriorityFilterMask h) ePriority <> 0 ->
  Z.land (eModulesFilterMask h) eModule <> 0 ->
  LOG_WRITE false (Some l) eModule ePriority None va m =
    Done tt (mkMachine (mem m) (sink m) (trace m ++ [EvAcquire l; EvRelease l])).
Proof.
  intros Hl H0 Hp Hm. apply (LOG_WRITE_null_fmt _ _ h); try assumption.
  apply filtered_out_false. split; assumption.
Qed.

Ltac break_hyps :=
  repeat match goal with
         | H : ex _ |- _ => destruct H
         | H : _ /\ _ |- _ => destruct H
         | H : _ \/ _ |- _ => destruct H
         end.

(** Closes one line of a table of outcomes, once the outcome is known: what
    is assumed is taken apart, and what is to be shown is found among the
    facts of the case. *)
Ltac outcome_table :=
  repeat split; intros; break_hyps; simplify_eq;
  first [ congruence
        | exfalso; congruence
        | solve [eauto 10]
        | solve [do 2 eexists; reflexivity]
        | solve [eexists; reflexivity]
        | solve [do 2 eexists; repeat split; eauto;
                 first [ left; assumption
                       | right; split; [assumption |];
                         first [left; reflexivity | right; congruence | congruence] ]] ].

(** X3: the ways [LOG_Write] can end.  It never waits.  It returns exactly
    when the handle pointer is null, or the format is null, or the handle
    is there and holds a sink; with a handle pointer that is not null and
    a format, it faults on a pointer to no handle, and calls through a null
    pointer when the handle has no sink. *)
Theorem X3_LOG_Write_outcomes m ptLog pszFmt va :
  LOG_Write ptLog pszFmt va m <> Hang
  /\ ((exists b m', LOG_Write ptLog pszFmt va m = Done b m')
      <-> ptLog = None \/ pszFmt = None
          \/ exists l h f, ptLog = Some l /\ mem m !! l = Some h
                           /\ pfnLogWrite h = Some f)
  /\ (LOG_Write ptLog pszFmt va m = Fault BadPointer
      <-> exists l fmt, ptLog = Some l /\ pszFmt = Some fmt /\ mem m !! l = None)
  /\ (LOG_Write ptLog pszFmt va m = Fault NullCall
      <-> exists l fmt h, ptLog = Some l /\ pszFmt = Some fmt
                         /\ mem m !! l = Some h /\ pfnLogWrite h = None).
Proof.
  destruct ptLog as [l |]; [destruct pszFmt as [fmt |] |].
  - destruct (mem m !! l) as [h |] eqn:Hl.
    + destruct (pfnLogWrite h) as [f |] eqn:Hf.
      * rewrite (LOG_Write_valid _ _ _ _ _ _ Hl Hf). outcome_table.
      * rewrite (LOG_Write_no_sink _ _ _ _ _ Hl Hf). outcome_table.
    + rewrite (LOG_Write_dangling _ _ _ _ Hl). outcome_table.
  - rewrite LOG_Write_null_fmt. outcome_table.
  - change (LOG_Write None pszFmt va m) with (@Done SinkSt _ FALSE m).
    outcome_table.
Qed.

(** X4: the ways [LOG_WRITE] can end in a build with logging enabled.  The
    macro does not test its handle pointer: on a null pointer or a pointer
    to no handle it faults.  On a handle, a message that passes the masks
    waits for ever when the lock cell is not 0, and with a free lock and a
    format it calls through a null pointer when the handle has no sink.  In
    all other cases, and only in those, it completes. *)
Theorem X4_LOG_WRITE_outcomes m ptLog eModule ePriority pszFmt va :
  (LOG_WRITE false ptLog eModule ePriority pszFmt va m = Fault BadPointer
   <-> ptLog = None \/ exists l, ptLog = Some l /\ mem m !! l = None)
  /\ (LOG_WRITE false ptLog eModule ePriority pszFmt va m = Hang
      <-> exists l h, ptLog = Some l /\ mem m !! l = Some h
                     /\ filtered_out h eModule ePriority = false
                     /\ tLock h <> 0)
  /\ (LOG_WRITE false ptLog eModule ePriority pszFmt va m = Fault NullCall
      <-> exists l h fmt, ptLog = Some l /\ mem m !! l = Some h
                         /\ filtered_out h eModule ePriority = false
                         /\ tLock h = 0 /\ pszFmt = Some fmt
                         /\ pfnLogWrite h = None)
  /\ ((exists m', LOG_WRITE false ptLog eModule ePriority pszFmt va m = Done tt m')
      <-> exists l h, ptLog = Some l /\ mem m !! l = Some h
                     /\ (filtered_out h eModule ePriority = true
                         \/ (tLock h = 0
                             /\ (pszFmt = None \/ pfnLogWrite h <> None)))).
Proof.
  destruct ptLog as [l |];
    [| rewrite LOG_WRITE_invalid by auto; outcome_table].
  destruct (mem m !! l) as [h |] eqn:Hl;
    [| rewrite LOG_WRITE_invalid by eauto; outcome_table].
  destruct (filtered_out h eModule ePriority) eqn:Hflt;
    [rewrite (LOG_WRITE_filtered _ _ _ _ _ _ _ Hl Hflt); outcome_table |].
  destruct (decide (tLock h = 0)) as [H0 | Hheld];
    [| rewrite (LOG_WRITE_held _ _ _ _ _ _ _ Hl Hflt Hheld); outcome_table].
  destruct pszFmt as [fmt |];
    [| rewrite (LOG_WRITE_null_fmt _ _ _ _ _ _ Hl H0 Hflt); outcome_table].
  destruct (pfnLogWrite h) as [f |] eqn:Hf.
  - rewrite (LOG_WRITE_valid _ _ _ _ _ _ _ _ Hl Hf H0 Hflt). outcome_table.
  - rewrite (LOG_WRITE_no_sink _ _ _ _ _ _ _ Hl Hflt H0 Hf). outcome_table.
Qed.

(** X5: the ways a decorated macro can end.  As [LOG_WRITE], it faults on a
    null pointer or a pointer to no handle, and a message that passes the
    masks waits for ever on a lock cell that is not 0.  With a free lock it
    calls through a null pointer when the handle has no sink, whatever the
    caller's format, because the prefix has a format of its own.  It
    completes exactly when the handle is there and either drops the message
    or has a free lock and a sink. *)
Theorem X5_decorated_outcomes m ptLog n eModule pszFmt va file line :
  (LOG_decorated n ptLog eModule pszFmt va file line m = Fault BadPointer
   <-> ptLog = None \/ exists l, ptLog = Some l /\ mem m !! l = None)
  /\ (LOG_decorated n ptLog eModule pszFmt va file line m = Hang
      <-> exists l h, ptLog = Some l /\ mem m !! l = Some h
                     /\ filtered_out h eModule (paste_LOG_PRIORITY n) = false
                     /\ tLock h <> 0)
  /\ (LOG_decorated n ptLog eModule pszFmt va file line m = Fault NullCall
      <-> exists l h, ptLog = Some l /\ mem m !! l = Some h
                     /\ filtered_out h eModule (paste_LOG_PRIORITY n) = false
                     /\ tLock h = 0 /\ pfnLogWrite h = None)
  /\ ((exists m', LOG_decorated n ptLog eModule pszFmt va file line m = Done tt m')
      <-> exists l h, ptLog = Some l /\ mem m !! l = Some h
                     /\ (filtered_out h eModule (paste_LOG_PRIORITY n) = true
                         \/ (tLock h = 0 /\ pfnLogWrite h <> None))).
Proof.
  rewrite LOG_decorated_unfold.
  destruct ptLog as [l |];
    [| rewrite prefix_by_priority_invalid by auto; outcome_table].
  destruct (mem m !! l) as [h |] eqn:Hl;
    [| rewrite prefix_by_priority_invalid by eauto; outcome_table].
  destruct (filtered_out h eModule (paste_LOG_PRIORITY n)) eqn:Hflt;
    [rewrite (prefix_by_priority_filtered _ _ _ _ _ _ _ _ _ Hl Hflt); outcome_table |].
  destruct (decide (tLock h = 0)) as [H0 | Hheld];
    [| rewrite (prefix_by_priority_held _ _ _ _ _ _ _ _ _ Hl Hflt Hheld);
       outcome_table].
  destruct (pfnLogWrite h) as [f |] eqn:Hf;
    [| rewrite (prefix_by_priority_no_sink _ _ _ _ _ _ _ _ _ Hl Hflt H0 Hf);
       outcome_table].
  destruct pszFmt as [fmt |].
  - rewrite (prefix_by_priority_valid _ _ _ _ _ _ _ _ _ _ Hl Hf H0 Hflt).
    outcome_table.
  - rewrite (prefix_by_priority_null_fmt _ _ _ _ _ _ _ _ _ Hl Hf H0 Hflt).
    outcome_table.
Qed.

(** ** Construction, then use *)

(** X6: a second [LOG_InitHandle] with a sink decides the handle alone:
    nothing the first call stored is left, and it makes no difference
    whether the first call succeeded, failed or was never made.  This holds
    for every handle pointer, also a null or a bad one. *)
Theorem X6_LOG_InitHandle_last_call_decides
    m ptLog pfn1 ctx1 eModules1 ePriority1 f2 ctx2 eModules2 ePriority2 :
  bind (LOG_InitHandle ptLog pfn1 ctx1 eModules1 ePriority1)
    (fun _ => LOG_InitHandle ptLog (Some f2) ctx2 eModules2 ePriority2) m
  = LOG_InitHandle ptLog (Some f2) ctx2 eModules2 ePriority2 m.
Proof.
  destruct ptLog as [l |]; [| reflexivity].
  destruct pfn1 as [f1 |]; [| reflexivity].
  destruct (mem m !! l) as [h0 |] eqn:Hl.
  - rewrite (bind_Done _ _ _ _ _ (LOG_InitHandle_valid _ _ f1 _ ctx1 eModules1 ePriority1 Hl)).
    erewrite LOG_InitHandle_valid by (simpl; apply lookup_insert_eq).
    rewrite (LOG_InitHandle_valid _ _ f2 _ ctx2 eModules2 ePriority2 Hl).
    simpl. rewrite insert_insert_eq. reflexivity.
  - rewrite (bind_Fault _ _ _ _ (LOG_InitHandle_dangling _ _ f1 ctx1 eModules1 ePriority1 Hl)).
    rewrite (LOG_InitHandle_dangling _ _ f2 ctx2 eModules2 ePriority2 Hl).
    reflexivity.
Qed.

(** X7: what [LOG_InitHandle] stores is what [LOG_Write] uses.  After a
    successful initialisation of any storage, a raw write calls the sink
    given at initialisation, once, with the context given at
    initialisation, and returns the result of that sink. *)
Theorem X7_LOG_Write_uses_initialised_sink
    m l h0 f ctx eModules ePriority fmt va :
  mem m !! l = Some h0 ->
  let r := f ctx fmt va (sink m) in
  bind (LOG_InitHandle (Some l) (Some f) ctx eModules ePriority)
    (fun _ => LOG_Write (Some l) (Some fmt) va) m
  = Done r.1
      (mkMachine (<[l := mkLOG_HANDLE (Some f) ctx ePriority eModules 0]> (mem m))
         r.2 (trace m ++ [EvSink ctx fmt va r.1])).
Proof.
  intros Hl. cbv zeta.
  rewrite (bind_Done _ _ _ _ _ (LOG_InitHandle_valid _ _ f _ ctx eModules ePriority Hl)).
  cbv beta.
  rewrite (LOG_Write_valid _ l (mkLOG_HANDLE (Some f) ctx ePriority eModules 0) f);
    [reflexivity | simpl; apply lookup_insert_eq | reflexivity].
Qed.

Lemma run_call_mem disable_log ptLog c m u m' :
  run_call disable_log ptLog c m = Done u m' -> mem m' = mem m.
Proof.
  intros H. destruct c; simpl in H.
  - apply bind_inv in H as (b & m1 & Hw & H).
    injection H as _ <-. eapply LOG_Write_mem, Hw.
  - eapply LOG_WRITE_mem, H.
  - rewrite LOG_decorated_unfold in H. eapply prefix_by_priority_mem, H.
Qed.

(** X8: [LOG_InitHandle] makes any storage usable.  Whatever the storage
    held before (no sink, a lock cell that is not 0), after a successful
    initialisation every logging call completes, in either build and for
    every mask, and leaves the handle as it was initialised. *)
Theorem X8_initialised_handle_is_usable
    m l h0 f ctx eModules ePriority disable_log c :
  mem m !! l = Some h0 ->
  exists m',
    bind (LOG_InitHandle (Some l) (Some f) ctx eModules ePriority)
      (fun _ => run_call disable_log (Some l) c) m = Done tt m'
    /\ mem m' = <[l := mkLOG_HANDLE (Some f) ctx ePriority eModules 0]> (mem m).
Proof.
  intros Hl.
  rewrite (bind_Done _ _ _ _ _ (LOG_InitHandle_valid _ _ f _ ctx eModules ePriority Hl)).
  set (h := mkLOG_HANDLE (Some f) ctx ePriority eModules 0).
  destruct (run_call_completes disable_log l h f c
              (mkMachine (<[l := h]> (mem m)) (sink m) (trace m)))
    as [m' Hrun]; [apply lookup_insert_eq | reflexivity | reflexivity |].
  exists m'. split; [exact Hrun |].
  apply run_call_mem in Hrun. exact Hrun.
Qed.

(** ** The filter as arithmetic on masks *)

Lemma land_lor_zero a x y :
  (0 =? Z.land a (Z.lor x y)) = (0 =? Z.land a x) && (0 =? Z.land a y).
Proof.
  rewrite Z.land_lor_distr_r.
  destruct (Z.eqb_spec 0 (Z.land a x)) as [Hx | Hx],
           (Z.eqb_spec 0 (Z.land a y)) as [Hy | Hy]; cbn [andb].
  - rewrite <- Hx, <- Hy. reflexivity.
  - apply Z.eqb_neq. intros H. symmetry in H.
    apply Z.lor_eq_0_iff in H as [_ H]. congruence.
  - apply Z.eqb_neq. intros H. symmetry in H.
    apply Z.lor_eq_0_iff in H as [H _]. congruence.
  - apply Z.eqb_neq. intros H. symmetry in H.
    apply Z.lor_eq_0_iff in H as [H _]. congruence.
Qed.

(** X9: a zero mask drops everything, and a zero tag is always dropped.  On
    a handle whose priority mask or module mask is 0, every call of
    [LOG_WRITE] and of a decorated macro is a no-op; and a call made with
    module 0 (or, for [LOG_WRITE], priority 0) is a no-op on every handle,
    also one whose masks are [ALL]. *)
Theorem X9_zero_mask_or_zero_tag_is_dropped m l h :
  mem m !! l = Some h ->
  (forall disable_log eModule ePriority pszFmt va,
      ePriorityFilterMask h = 0 \/ eModulesFilterMask h = 0
      \/ eModule = 0 \/ ePriority = 0 ->
      LOG_WRITE disable_log (Some l) eModule ePriority pszFmt va m = Done tt m)
  /\ (forall n eModule pszFmt va file line,
      ePriorityFilterMask h = 0 \/ eModulesFilterMask h = 0 \/ eModule = 0 ->
      LOG_decorated n (Some l) eModule pszFmt va file line m = Done tt m).
Proof.
  intros Hl. split.
  - intros [|] eModule ePriority pszFmt va Hz; [reflexivity |].
    apply (LOG_WRITE_filtered _ _ h); [exact Hl |].
    apply filtered_out_true.
    destruct Hz as [-> | [-> | [-> | ->]]];
      rewrite ?Z.land_0_l, ?Z.land_0_r; auto.
  - intros n eModule pszFmt va file line Hz.
    rewrite LOG_decorated_unfold.
    apply (prefix_by_priority_filtered _ _ h); [exact Hl |].
    apply filtered_out_true.
    destruct Hz as [-> | [-> | ->]];
      rewrite ?Z.land_0_l, ?Z.land_0_r; auto.
Qed.

Lemma land_ones32 x : 0 < x < 2 ^ 32 -> Z.land UINT32_MAX x <> 0.
Proof.
  intros Hx. unfold UINT32_MAX.
  rewrite Z.land_comm, Z.land_ones by lia.
  rewrite Z.mod_small by lia. lia.
Qed.

(** X10: with both masks [ALL], every message with a module and a priority
    that are 32-bit values and not 0 passes the filter: on such a handle,
    with a sink and a free lock, each of the five decorated macros calls the
    sink three times for every such module. *)
Theorem X10_ALL_masks_pass_every_tag m l h f :
  mem m !! l = Some h -> pfnLogWrite h = Some f -> tLock h = 0 ->
  ePriorityFilterMask h = LOG_PRIORITY_ALL ->
  eModulesFilterMask h = LOG_MODULE_ALL ->
  forall eModule, 0 < eModule < 2 ^ 32 ->
    (forall ePriority, 0 < ePriority < 2 ^ 32 ->
       filtered_out h eModule ePriority = false)
    /\ (forall n fmt va file line,
        sink_invocations m
          (LOG_decorated n (Some l) eModule (Some fmt) va file line m)
        = Some 3%nat).
Proof.
  intros Hl Hf H0 Hp Hm eModule Hmod.
  assert (Hpass : forall ePriority, 0 < ePriority < 2 ^ 32 ->
                    filtered_out h eModule ePriority = false).
  { intros ePriority Hpri. apply filtered_out_false.
    rewrite Hp, Hm. split; apply land_ones32; assumption. }
  split; [exact Hpass |].
  intros n fmt va file line. rewrite LOG_decorated_unfold.
  erewrite prefix_by_priority_valid; try eassumption.
  - unfold sink_invocations. rewrite new_events_app. reflexivity.
  - apply Hpass. destruct n; vm_compute; split; reflexivity.
Qed.

(** X11: widening a mask never drops a message that passed, and narrowing
    a mask never lets through a message that was dropped: the test of the
    macros is monotone in both masks of the handle. *)
Theorem X11_filter_is_monotone_in_the_masks h eModule ePriority x y :
  (filtered_out h eModule ePriority = false ->
   filtered_out
     (set_ePriorityFilterMask (Z.lor (ePriorityFilterMask h) x)
        (set_eModulesFilterMask (Z.lor (eModulesFilterMask h) y) h))
     eModule ePriority = false)
  /\ (filtered_out h eModule ePriority = true ->
      filtered_out
        (set_ePriorityFilterMask (Z.land (ePriorityFilterMask h) x)
           (set_eModulesFilterMask (Z.land (eModulesFilterMask h) y) h))
        eModule ePriority = true).
Proof.
  split.
  - intros H. apply filtered_out_false in H as [Hp Hm].
    apply filtered_out_false. simpl.
    rewrite !Z.land_lor_distr_l. split; intros H0;
      apply Z.lor_eq_0_iff in H0 as [H0 _]; contradiction.
  - intros H. apply filtered_out_true in H.
    apply filtered_out_true. simpl.
    rewrite (Z.land_comm _ x), (Z.land_comm _ y), <- !Z.land_assoc.
    destruct H as [-> | ->]; rewrite Z.land_0_r; auto.
Qed.

(** X12: tags combined with [|].  A [LOG_WRITE] whose priority argument is
    [p1 | p2] is dropped exactly when it would be dropped both as [p1] and
    as [p2]; the same holds of a module argument [m1 | m2].  So a message
    tagged with several priorities or modules is written as soon as one of
    them is enabled. *)
Theorem X12_combined_tags_pass_when_one_passes h eModule ePriority x :
  filtered_out h eModule (Z.lor ePriority x)
  = filtered_out h eModule ePriority && filtered_out h eModule x
  /\ filtered_out h (Z.lor eModule x) ePriority
     = filtered_out h eModule ePriority && filtered_out h x ePriority.
Proof.
  unfold filtered_out. rewrite !land_lor_zero. split.
  - destruct (0 =? Z.land (ePriorityFilterMask h) ePriority),
             (0 =? Z.land (ePriorityFilterMask h) x),
             (0 =? Z.land (eModulesFilterMask h) eModule); reflexivity.
  - destruct (0 =? Z.land (ePriorityFilterMask h) ePriority),
             (0 =? Z.land (eModulesFilterMask h) eModule),
             (0 =? Z.land (eModulesFilterMask h) x); reflexivity.
Qed.

(** ** Calls one after the other *)

Lemma count_events_app p evs1 evs2 :
  count_events p (evs1 ++ evs2) = (count_events p evs1 + count_events p evs2)%nat.
Proof. unfold count_events. rewrite filter_app, length_app. reflexivity. Qed.

(** One call on a usable handle: it completes, memory is as before, and
    what it added to the trace has the sink calls the text of the call
    shows and as many acquires as releases. *)
Lemma run_call_usable disable_log l h f c m :
  mem m !! l = Some h -> pfnLogWrite h = Some f -> tLock h = 0 ->
  exists m' evs,
    run_call disable_log (Some l) c m = Done tt m'
    /\ mem m' = mem m
    /\ trace m' = trace m ++ evs
    /\ count_events is_sink_event evs = sink_calls_due disable_log h c
    /\ count_events is_acquire_event evs = count_events is_release_event evs.
Proof.
  intros Hl Hf H0.
  destruct c as [pszFmt va | eModule ePriority pszFmt va
                | n eModule pszFmt va file line];
    unfold run_call, sink_calls_due.
  - destruct pszFmt as [fmt |].
    + erewrite bind_Done by (eapply LOG_Write_valid; eassumption).
      do 2 eexists. split; [reflexivity |]. simpl. auto.
    + exists m, []. rewrite app_nil_r. auto.
  - destruct disable_log; [exists m, []; rewrite app_nil_r; auto |].
    destruct (filtered_out h eModule ePriority) eqn:Hflt; cbn [orb].
    + rewrite (LOG_WRITE_filtered _ _ _ _ _ _ _ Hl Hflt).
      exists m, []. rewrite app_nil_r. auto.
    + destruct pszFmt as [fmt |].
      * rewrite (LOG_WRITE_valid _ _ _ _ _ _ _ _ Hl Hf H0 Hflt).
        do 2 eexists. split; [reflexivity |]. simpl. auto.
      * rewrite (LOG_WRITE_null_fmt _ _ _ _ _ _ Hl H0 Hflt).
        do 2 eexists. split; [reflexivity |]. simpl. auto.
  - rewrite LOG_decorated_unfold.
    destruct (filtered_out h eModule (paste_LOG_PRIORITY n)) eqn:Hflt.
    + rewrite (prefix_by_priority_filtered _ _ _ _ _ _ _ _ _ Hl Hflt).
      exists m, []. rewrite app_nil_r. auto.
    + destruct pszFmt as [fmt |].
      * rewrite (prefix_by_priority_valid _ _ _ _ _ _ _ _ _ _ Hl Hf H0 Hflt).
        do 2 eexists. split; [reflexivity |]. simpl. auto.
      * rewrite (prefix_by_priority_null_fmt _ _ _ _ _ _ _ _ _ Hl Hf H0 Hflt).
        do 2 eexists. split; [reflexivity |]. simpl. auto.
Qed.

Lemma run_calls_usable disable_log l h f cs m :
  mem m !! l = Some h -> pfnLogWrite h = Some f -> tLock h = 0 ->
  exists m' evs,
    run_calls disable_log (Some l) cs m = Done tt m'
    /\ mem m' = mem m
    /\ trace m' = trace m ++ evs
    /\ count_events is_sink_event evs
       = sum_list (map (sink_calls_due disable_log h) cs)
    /\ count_events is_acquire_event evs = count_events is_release_event evs.
Proof.
  revert m. induction cs as [| c cs IH]; intros m Hl Hf H0.
  - exists m, []. rewrite app_nil_r. auto.
  - destruct (run_call_usable disable_log l h f c m Hl Hf H0)
      as (m1 & evs1 & Hrun1 & Hmem1 & Htr1 & Hs1 & Hb1).
    destruct (IH m1) as (m2 & evs2 & Hrun2 & Hmem2 & Htr2 & Hs2 & Hb2);
      [rewrite Hmem1; exact Hl | exact Hf | exact H0 |].
    exists m2, (evs1 ++ evs2). split; [| split; [| split; [| split]]].
    + cbn [run_calls]. rewrite (bind_Done _ _ _ _ _ Hrun1). exact Hrun2.
    + congruence.
    + rewrite Htr2, Htr1, app_assoc. reflexivity.
    + rewrite count_events_app, Hs1, Hs2. reflexivity.
    + rewrite !count_events_app, Hb1, Hb2. reflexivity.
Qed.

(** X13: calls compose.  On a handle with a sink and a free lock, any
    sequence of calls of [LOG_Write], [LOG_WRITE] and the decorated macros
    completes and leaves memory as it was, so that the handle is as usable
    after the sequence as before.  The sink has been called once for every
    raw write with a format that the build and the filter let through (one
    per [LOG_Write] and [LOG_WRITE], prefix, body and suffix per decorated
    call), and the trace has as many acquires as releases. *)
Theorem X13_calls_compose disable_log l h f cs m :
  mem m !! l = Some h -> pfnLogWrite h = Some f -> tLock h = 0 ->
  exists m',
    run_calls disable_log (Some l) cs m = Done tt m'
    /\ mem m' = mem m
    /\ count_events is_sink_event (new_events m m')
       = sum_list (map (sink_calls_due disable_log h) cs)
    /\ count_events is_acquire_event (new_events m m')
       = count_events is_release_event (new_events m m').
Proof.
  intros Hl Hf H0.
  destruct (run_calls_usable disable_log l h f cs m Hl Hf H0)
    as (m' & evs & Hrun & Hmem & Htr & Hs & Hb).
  assert (Hnew : new_events m m' = evs).
  { unfold new_events. rewrite Htr. apply drop_app_length. }
  exists m'. rewrite Hnew. auto.
Qed.

(** ** No deadlock *)

(** On a handle with a sink, the statement at [p] runs whenever the lock is
    free or [p] is past the acquire; and it moves on. *)
Lemma step_at_enabled l c p m h f :
  mem m !! l = Some h -> pfnLogWrite h = Some f ->
  tLock h = 0 \/ in_guard p = true ->
  exists p' m', step_at (Some l) c p m = Done p' m' /\ (p' = AtEnd \/ p' <> p).
Proof.
  intros Hl Hf Hen. destruct p; unfold step_at.
  - rewrite (bind_Done _ _ _ _ _ (deref_valid _ _ _ Hl)).
    destruct (filtered_out _ _ _); do 2 eexists; (split; [reflexivity |]);
      [left; reflexivity | right; discriminate].
  - destruct Hen as [H0 | Hg]; [| discriminate].
    rewrite (bind_Done _ _ _ _ _ (LOCK_SpinlockAcquire_free _ _ _ Hl H0)).
    do 2 eexists. split; [reflexivity | right; discriminate].
  - erewrite bind_Done by (eapply LOG_Write_valid; eassumption).
    do 2 eexists. split; [reflexivity | right; discriminate].
  - destruct (dc_fmt c) as [fmt |].
    + erewrite bind_Done by (eapply LOG_Write_valid; eassumption).
      do 2 eexists. split; [reflexivity | right; discriminate].
    + do 2 eexists. split; [reflexivity | right; discriminate].
  - erewrite bind_Done by (eapply LOG_Write_valid; eassumption).
    do 2 eexists. split; [reflexivity | right; discriminate].
  - rewrite (bind_Done _ _ _ _ _ (LOCK_SpinlockRelease_valid _ _ _ Hl)).
    do 2 eexists. split; [reflexivity | left; reflexivity].
  - do 2 eexists. split; [reflexivity | left; reflexivity].
Qed.

Lemma live_inv_init l f h (m : @machine SinkSt) progs :
  mem m !! l = Some h -> pfnLogWrite h = Some f -> tLock h = 0 ->
  live_inv l f (init_config m progs).
Proof. intros Hl Hf H0. exists h. auto. Qed.

(** The witness of a held lock survives the step of another thread. *)
Lemma held_by_other (ths : list thread) t p k cs th' t0 th0 :
  ths !! t = Some (mkThread p k cs) -> in_guard p = false ->
  ths !! t0 = Some th0 -> in_guard (th_pc th0) = true ->
  <[t := th']> ths !! t0 = Some th0.
Proof.
  intros Ht Hp Ht0 Hg.
  rewrite list_lookup_insert_ne; [exact Ht0 |].
  intros <-. rewrite Ht in Ht0. injection Ht0 as <-. simpl in Hg. congruence.
Qed.

Lemma live_inv_step l f t (cfg : @config SinkSt) :
  live_inv l f cfg -> live_inv l f (sched_step (Some l) t cfg).
Proof.
  intros Hinv. unfold sched_step.
  destruct (threads cfg !! t) as [[p k [| c rest]] |] eqn:Ht; try exact Hinv.
  destruct (step_at (Some l) c p (shared cfg)) as [p' m' | |] eqn:Hstep;
    try exact Hinv.
  destruct Hinv as (h & Hl & Hf & Hlock).
  assert (Hlt : (t < length (threads cfg))%nat) by (eapply lookup_lt_Some, Ht).
  destruct p; unfold step_at in Hstep.
  - (* the filter test *)
    apply bind_inv in Hstep as (h1 & m1 & Hd & H).
    apply deref_inv in Hd as [-> _]. unfold ret in H.
    exists h. simpl. split; [| split; [exact Hf |]].
    + destruct (filtered_out _ _ _); injection H as _ <-; exact Hl.
    + destruct Hlock as [H0 | (t0 & th0 & Ht0 & Hg & Hw)]; [left; exact H0 |].
      right. exists t0, th0. split; [| auto].
      eapply held_by_other; [exact Ht | reflexivity | exact Ht0 | exact Hg].
  - (* acquire *)
    apply bind_inv in Hstep as (u & m1 & Ha & H).
    unfold ret in H. injection H as <- <-.
    apply LOCK_SpinlockAcquire_inv in Ha as (l' & h1 & [= <-] & Hl1 & H0 & ->).
    rewrite Hl in Hl1. injection Hl1 as <-.
    exists (set_tLock 1 h). simpl.
    split; [apply lookup_insert_eq |]. split; [exact Hf |].
    right. exists t, (mkThread AtPrefix k (c :: rest)).
    rewrite list_lookup_insert_eq by exact Hlt. auto.
  - (* the prefix *)
    apply bind_inv in Hstep as (b & m1 & Hw & H).
    unfold ret in H. injection H as <- <-.
    apply LOG_Write_mem in Hw.
    exists h. simpl. rewrite Hw. split; [exact Hl |]. split; [exact Hf |].
    right. exists t, (mkThread AtBody k (c :: rest)).
    rewrite list_lookup_insert_eq by exact Hlt. auto.
  - (* the body *)
    apply bind_inv in Hstep as (b & m1 & Hw & H).
    unfold ret in H. injection H as <- <-.
    apply LOG_Write_mem in Hw.
    exists h. simpl. rewrite Hw. split; [exact Hl |]. split; [exact Hf |].
    right. exists t, (mkThread AtSuffix k (c :: rest)).
    rewrite list_lookup_insert_eq by exact Hlt. auto.
  - (* the suffix *)
    apply bind_inv in Hstep as (b & m1 & Hw & H).
    unfold ret in H. injection H as <- <-.
    apply LOG_Write_mem in Hw.
    exists h. simpl. rewrite Hw. split; [exact Hl |]. split; [exact Hf |].
    right. exists t, (mkThread AtRelease k (c :: rest)).
    rewrite list_lookup_insert_eq by exact Hlt. auto.
  - (* release *)
    apply bind_inv in Hstep as (u & m1 & Hr & H).
    unfold ret in H. injection H as <- <-.
    apply LOCK_SpinlockRelease_inv in Hr as (l' & h1 & [= <-] & Hl1 & ->).
    rewrite Hl in Hl1. injection Hl1 as <-.
    exists (set_tLock 0 h). simpl.
    split; [apply lookup_insert_eq |]. split; [exact Hf |]. left. reflexivity.
  - (* past the end *)
    unfold ret in Hstep. injection Hstep as <- <-.
    exists h. simpl. split; [exact Hl |]. split; [exact Hf |].
    destruct Hlock as [H0 | (t0 & th0 & Ht0 & Hg & Hw)]; [left; exact H0 |].
    right. exists t0, th0. split; [| auto].
    eapply held_by_other; [exact Ht | reflexivity | exact Ht0 | exact Hg].
Qed.

Lemma live_inv_run l f s (cfg : @config SinkSt) :
  live_inv l f cfg -> live_inv l f (run_schedule (Some l) s cfg).
Proof.
  unfold run_schedule. revert cfg.
  induction s as [| t s IH]; intros cfg Hinv; simpl.
  - exact Hinv.
  - apply IH, live_inv_step, Hinv.
Qed.

(** A thread whose statement runs is not where it was afterwards. *)
Lemma sched_step_moves l t (cfg : @config SinkSt) p k c rest p' m' :
  threads cfg !! t = Some (mkThread p k (c :: rest)) ->
  step_at (Some l) c p (shared cfg) = Done p' m' ->
  p' = AtEnd \/ p' <> p ->
  threads (sched_step (Some l) t cfg) !! t <> Some (mkThread p k (c :: rest)).
Proof.
  intros Ht Hstep Hmove. unfold sched_step. rewrite Ht, Hstep. simpl.
  rewrite list_lookup_insert_eq by (eapply lookup_lt_Some, Ht).
  destruct Hmove as [-> | Hne].
  - intros [= _ Hk _]. lia.
  - destruct p'; intros [= Hp]; try congruence. lia.
Qed.

(** X14: no deadlock.  Threads make decorated calls on a handle that has a
    sink and whose lock was free at the start, under any schedule.  As long
    as some thread has a call left, there is a thread with a call left
    whose next step runs: either the lock is free and any thread can go
    on, or the thread that holds it is between acquire and release, where
    no statement waits, and it will release. *)
Theorem X14_threads_never_deadlock
    (m : @machine SinkSt) l h f (progs : list (list decorated_call)) (s : list nat) :
  mem m !! l = Some h -> pfnLogWrite h = Some f -> tLock h = 0 ->
  let cfg := run_schedule (Some l) s (init_config m progs) in
  (exists t th, threads cfg !! t = Some th /\ th_todo th <> []) ->
  exists t th, threads cfg !! t = Some th /\ th_todo th <> []
               /\ threads (sched_step (Some l) t cfg) !! t <> Some th.
Proof.
  intros Hl Hf H0 cfg (t & th & Ht & Hwork).
  destruct (live_inv_run l f s _ (live_inv_init l f h m progs Hl Hf H0))
    as (h' & Hl' & Hf' & Hlock).
  fold cfg in Hl', Hlock.
  assert (Hgo : exists t1 p k c rest,
             threads cfg !! t1 = Some (mkThread p k (c :: rest))
             /\ (tLock h' = 0 \/ in_guard p = true)).
  { destruct Hlock as [Hfree | (t0 & [p0 k0 cs0] & Ht0 & Hg & Hw0)].
    - destruct th as [p k [| c rest]]; [contradiction |].
      exists t, p, k, c, rest. auto.
    - destruct cs0 as [| c rest]; [contradiction |].
      exists t0, p0, k0, c, rest. auto. }
  destruct Hgo as (t1 & p & k & c & rest & Ht1 & Hen).
  destruct (step_at_enabled l c p (shared cfg) h' f Hl' Hf' Hen)
    as (p' & m' & Hstep & Hmove).
  exists t1, (mkThread p k (c :: rest)).
  split; [exact Ht1 |]. split; [discriminate |].
  eapply sched_step_moves; eassumption.
Qed.

End LogFacts.

(** * The properties at work on the example data *)

Import Demo.

Ltac by_computation := vm_compute; first [reflexivity | lia | discriminate].

Lemma C1_witness :
  LOG_WRITE false ptLog LOG_MODULE_PAGING LOG_PRIORITY_INFO (Some "x=%d") [VaInt 5] m0
  = Done tt m0
  /\ LOG_decorated WARN ptLog LOG_MODULE_ALL (Some "x=%d") [VaInt 5] "paging.c" 42 m0
     = Done tt m0.
Proof.
  destruct (C1_filtered_call_is_noop m0 1%N (handle (Some console_sink)) eq_refl)
    as [HW HD].
  split.
  - apply HW. left. reflexivity.
  - apply HD. left. reflexivity.
Defined.

Lemma C2_witness :
  LOG_decorated ERROR ptLog LOG_MODULE_PAGING (Some "x=%d") [VaInt 5] "paging.c" 42
    m_broken
  = Done tt
      (mkMachine (mem m_broken) []
         [EvAcquire 1%N;
          EvSink (Some 7%N) "(%s:%d) [ERROR] " [VaStr "paging.c"; VaInt 42] FALSE;
          EvSink (Some 7%N) "x=%d" [VaInt 5] FALSE;
          EvSink (Some 7%N) (String "013"%char (String "010"%char EmptyString))
            [] FALSE;
          EvRelease 1%N]).
Proof.
  refine (proj2 (proj2 (proj2
            (C2_decorated_call_writes_three_parts m_broken 1%N
               (handle (Some broken_sink)) broken_sink ERROR LOG_MODULE_PAGING
               "x=%d" [VaInt 5] "paging.c" 42 eq_refl eq_refl eq_refl _ _))));
    by_computation.
Defined.

(** C3 as the specification words it fails: in a build that defines the flag,
    [LOG_ERROR] on a handle that lets the message through is a macro call
    that calls the sink three times and changes the machine. *)
Lemma C3_counterexample :
  is_macro body_call = true
  /\ sink_invocations m0 (run_call true ptLog body_call m0) = Some 3%nat
  /\ run_call true ptLog body_call m0 <> Done tt m0.
Proof.
  split; [reflexivity |]. split; [reflexivity |].
  intros H. apply (f_equal (sink_invocations m0)) in H.
  vm_compute in H. discriminate.
Qed.

Lemma C3_witness :
  sink_invocations m0 (run_call true ptLog (CallWrite (Some "raw") []) m0) = Some 1%nat
  /\ sink_invocations m0 (run_call true ptLog body_call m0) = Some 3%nat.
Proof.
  destruct (@C3_flag_disables_LOG_WRITE_only (list string)) as (_ & Hraw & _ & Hdec).
  split.
  - apply (Hraw m0 1%N (handle (Some console_sink)) console_sink); reflexivity.
  - apply (Hdec m0 1%N (handle (Some console_sink)) console_sink);
      by_computation.
Defined.

Lemma C4_witness :
  LOG_InitHandle ptLog NULL (Some 7%N) LOG_MODULE_ALL LOG_PRIORITY_ALL m0 = Done FALSE m0
  /\ LOG_InitHandle ptLog (Some broken_sink) NULL 0 0 m0
     = Done TRUE
         (mkMachine (<[1%N := mkLOG_HANDLE (Some broken_sink) NULL 0 0 0]> (mem m0))
            (sink m0) (trace m0)).
Proof.
  split.
  - apply (C4_LOG_InitHandle m0 ptLog NULL (Some 7%N) LOG_MODULE_ALL LOG_PRIORITY_ALL).
    right. reflexivity.
  - apply (proj2 (proj2 (C4_LOG_InitHandle m0 ptLog (Some broken_sink) NULL 0 0))
             1%N broken_sink (handle (Some console_sink))); reflexivity.
Defined.

Lemma C5_witness :
  LOG_Write ptLog NULL [] m0 = Done FALSE m0
  /\ LOG_Write ptLog (Some "x=%d") [VaInt 5] m_broken
     = Done FALSE
         (mkMachine (mem m_broken) [] [EvSink (Some 7%N) "x=%d" [VaInt 5] FALSE]).
Proof.
  split.
  - apply (C5_LOG_Write m0 ptLog NULL []). right. reflexivity.
  - apply (proj2 (C5_LOG_Write m_broken ptLog (Some "x=%d") [VaInt 5])
             1%N "x=%d" (handle (Some broken_sink)) broken_sink); reflexivity.
Defined.

Lemma C6_witness :
  LOG_WRITE false ptLog LOG_MODULE_ALL LOG_PRIORITY_ALL (Some "x=%d") [VaInt 5] m0
  = Done tt
      (mkMachine (mem m0) ["x=%d"]
         [EvAcquire 1%N; EvSink (Some 7%N) "x=%d" [VaInt 5] TRUE; EvRelease 1%N]).
Proof.
  refine (C6_LOG_WRITE_writes_body_only m0 1%N (handle (Some console_sink))
            console_sink LOG_MODULE_ALL LOG_PRIORITY_ALL "x=%d" [VaInt 5]
            eq_refl eq_refl eq_refl _ _);
    by_computation.
Defined.


Lemma C8_witness : 1%nat = 1%nat /\ 0%nat = 0%nat.
Proof.
  destruct (C8_decorated_messages_do_not_interleave m0 1%N progs sched)
    as (_ & _ & H & _).
  apply (H 1%nat 0%nat 1%nat 0%nat
           (ev_prefix call_trace) (ev_body call_trace) ev_suffix
           [mkEntry 0 0 (EvAcquire 1%N); mkEntry 0 0 (ev_prefix call_error);
            mkEntry 0 0 (ev_body call_error); mkEntry 0 0 ev_suffix;
            mkEntry 0 0 (EvRelease 1%N); mkEntry 1 0 (EvAcquire 1%N)]
           [] []
           [mkEntry 1 0 (EvRelease 1%N); mkEntry 0 1 (EvAcquire 1%N);
            mkEntry 0 1 (ev_prefix call_error); mkEntry 0 1 (ev_body call_error);
            mkEntry 0 1 ev_suffix; mkEntry 0 1 (EvRelease 1%N)]);
    by_computation.
Defined.

Lemma C9_witness :
  LOG_Write ptLog (Some "x=%d") [VaInt 5] m_nosink = Fault NullCall.
Proof.
  apply (C9_LOG_Write_null_sink_unchecked m_nosink 1%N (handle None));
    reflexivity.
Defined.

Lemma C10_witness :
  mem m0_after_error = mem m0
  /\ exists m', LOG_InitHandle ptLog (Some broken_sink) NULL 0 0 m0 = Done TRUE m'
                /\ mem m' !! 1%N = Some (mkLOG_HANDLE (Some broken_sink) NULL 0 0 0).
Proof.
  destruct (@C10_logging_calls_leave_handles_unchanged (list string))
    as (Hlog & _ & Hinit).
  split.
  - apply (Hlog false ptLog body_call m0 m0_after_error). reflexivity.
  - apply (Hinit m0 1%N (handle (Some console_sink))). reflexivity.
Defined.

(** The scenario of the specification: a handle initialised with the module
    mask [PAGING] and the priority mask [ERROR | WARN], on storage that held
    garbage.  [LOG_INFO] calls the sink zero times; [LOG_ERROR] calls it
    three times, with prefix, body and suffix in this order. *)
Example scenario_error_warn :
  match LOG_InitHandle ptLog (Some console_sink) (Some 7%N) LOG_MODULE_PAGING
          (Z.lor LOG_PRIORITY_ERROR LOG_PRIORITY_WARN) (machine_with garbage) with
  | Done b m1 =>
      b = TRUE
      /\ LOG_INFO ptLog LOG_MODULE_PAGING (Some "x=%d") [VaInt 5] "paging.c" 42 m1
         = Done tt m1
      /\ LOG_ERROR ptLog LOG_MODULE_PAGING (Some "x=%d") [VaInt 5] "paging.c" 42 m1
         = Done tt
             (mkMachine (mem m1) ["(%s:%d) [ERROR] "; "x=%d"; suffix_fmt]
                [EvAcquire 1%N; ev_prefix call_error; ev_body call_error;
                 ev_suffix; EvRelease 1%N])
  | _ => False
  end.
Proof. vm_compute. repeat split. Qed.

(** On the storage before initialisation, the same [LOG_ERROR] reads the
    garbage masks, finds the lock cell "held" and spins. *)
Example uninitialised_handle_hangs :
  LOG_ERROR ptLog LOG_MODULE_ALL (Some "x=%d") [VaInt 5] "paging.c" 42
    (machine_with garbage) = Hang.
Proof. reflexivity. Qed.

(** The two threads of [progs] under [sched]: who made the sink calls, and
    for which of its calls, in the order the sink saw them. *)
Example two_threads_sink_order :
  map (fun en => (en_thread en, en_call en))
    (filter (fun en => is_sink_event (en_event en) = true)
       (log (run_schedule ptLog sched (init_config m0 progs))))
  = [(0, 0); (0, 0); (0, 0); (1, 0); (1, 0); (1, 0); (0, 1); (0, 1); (0, 1)]%nat.
Proof. vm_compute. reflexivity. Qed.

(** ** The further properties on the example data *)

Lemma X1_witness :
  LOG_decorated ERROR ptLog LOG_MODULE_PAGING None [VaInt 5] "paging.c" 42 m0
  = Done tt
      (mkMachine (mem m0) ["(%s:%d) [ERROR] "; suffix_fmt]
         [EvAcquire 1%N; ev_prefix call_error; ev_suffix; EvRelease 1%N]).
Proof.
  refine (X1_decorated_null_format_writes_prefix_and_suffix m0 1%N
            (handle (Some console_sink)) console_sink ERROR LOG_MODULE_PAGING
            [VaInt 5] "paging.c" 42 eq_refl eq_refl eq_refl _ _);
    by_computation.
Defined.

Lemma X2_witness :
  LOG_WRITE false ptLog LOG_MODULE_PAGING LOG_PRIORITY_ERROR None [] m_nosink
  = Done tt (mkMachine (mem m_nosink) [] [EvAcquire 1%N; EvRelease 1%N]).
Proof.
  refine (X2_LOG_WRITE_null_format_only_locks m_nosink 1%N (handle None)
            LOG_MODULE_PAGING LOG_PRIORITY_ERROR [] eq_refl eq_refl _ _);
    by_computation.
Defined.

Lemma X3_witness :
  LOG_Write ptLog (Some "x=%d") [VaInt 5] m_nosink = Fault NullCall.
Proof.
  apply (proj2 (proj2 (proj2 (X3_LOG_Write_outcomes m_nosink ptLog
                                (Some "x=%d") [VaInt 5])))).
  exists 1%N, "x=%d", (handle None). repeat split; reflexivity.
Defined.

Lemma X4_witness :
  LOG_WRITE false ptLog LOG_MODULE_ALL LOG_PRIORITY_ALL (Some "x=%d") [VaInt 5]
    (machine_with garbage) = Hang.
Proof.
  apply (proj1 (proj2 (X4_LOG_WRITE_outcomes (machine_with garbage) ptLog
                         LOG_MODULE_ALL LOG_PRIORITY_ALL (Some "x=%d") [VaInt 5]))).
  exists 1%N, garbage. repeat split; by_computation.
Defined.

Lemma X5_witness :
  LOG_decorated TRACE ptLog LOG_MODULE_PAGING None [] "vmx.c" 7 m_nosink
  = Fault NullCall.
Proof.
  apply (proj1 (proj2 (proj2 (X5_decorated_outcomes m_nosink ptLog TRACE
                                LOG_MODULE_PAGING None [] "vmx.c" 7)))).
  exists 1%N, (handle None). repeat split; by_computation.
Defined.

Lemma X7_witness :
  bind (LOG_InitHandle ptLog (Some broken_sink) NULL 0 0)
    (fun _ => LOG_Write ptLog (Some "x=%d") [VaInt 5]) (machine_with garbage)
  = Done FALSE
      (mkMachine (<[1%N := mkLOG_HANDLE (Some broken_sink) NULL 0 0 0]>
                    (mem (machine_with garbage)))
         [] [EvSink NULL "x=%d" [VaInt 5] FALSE]).
Proof.
  exact (X7_LOG_Write_uses_initialised_sink (machine_with garbage) 1%N garbage
           broken_sink NULL 0 0 "x=%d" [VaInt 5] eq_refl).
Defined.

Lemma X8_witness :
  exists m',
    bind (LOG_InitHandle ptLog (Some console_sink) (Some 7%N) LOG_MODULE_ALL
            LOG_PRIORITY_ALL)
      (fun _ => run_call false ptLog body_call) (machine_with garbage)
    = Done tt m'
    /\ mem m' = mem m_all.
Proof.
  exact (X8_initialised_handle_is_usable (machine_with garbage) 1%N garbage
           console_sink (Some 7%N) LOG_MODULE_ALL LOG_PRIORITY_ALL false body_call
           eq_refl).
Defined.

Lemma X9_witness :
  LOG_decorated ERROR ptLog 0 (Some "x=%d") [VaInt 5] "paging.c" 42 m_all
  = Done tt m_all.
Proof.
  apply (proj2 (X9_zero_mask_or_zero_tag_is_dropped m_all 1%N _ eq_refl)).
  right. right. reflexivity.
Defined.

Lemma X10_witness :
  sink_invocations m_all
    (LOG_decorated DEBUG ptLog 4096 (Some "x=%d") [VaInt 5] "paging.c" 42 m_all)
  = Some 3%nat.
Proof.
  refine (proj2 (X10_ALL_masks_pass_every_tag m_all 1%N _ console_sink
                   eq_refl eq_refl eq_refl eq_refl eq_refl 4096 _)
            DEBUG "x=%d" [VaInt 5] "paging.c" 42).
  lia.
Defined.

Lemma X11_witness :
  filtered_out
    (set_ePriorityFilterMask
       (Z.lor (Z.lor LOG_PRIORITY_ERROR LOG_PRIORITY_TRACE) LOG_PRIORITY_WARN)
       (set_eModulesFilterMask (Z.lor LOG_MODULE_PAGING 0)
          (handle (Some console_sink))))
    LOG_MODULE_PAGING LOG_PRIORITY_ERROR = false.
Proof.
  apply (proj1 (X11_filter_is_monotone_in_the_masks (handle (Some console_sink))
                  LOG_MODULE_PAGING LOG_PRIORITY_ERROR LOG_PRIORITY_WARN 0)).
  reflexivity.
Defined.

Lemma X13_witness :
  exists m',
    run_calls false ptLog
      [CallWrite (Some "raw") []; body_call;
       CallWRITE LOG_MODULE_PAGING LOG_PRIORITY_INFO (Some "info") [];
       CallDecorated TRACE LOG_MODULE_PAGING None [] "vmx.c" 7] m0
    = Done tt m'
    /\ mem m' = mem m0
    /\ count_events is_sink_event (new_events m0 m') = 6%nat
    /\ count_events is_acquire_event (new_events m0 m')
       = count_events is_release_event (new_events m0 m').
Proof.
  exact (X13_calls_compose false 1%N (handle (Some console_sink)) console_sink
           [CallWrite (Some "raw") []; body_call;
            CallWRITE LOG_MODULE_PAGING LOG_PRIORITY_INFO (Some "info") [];
            CallDecorated TRACE LOG_MODULE_PAGING None [] "vmx.c" 7]
           m0 eq_refl eq_refl eq_refl).
Defined.

Lemma X14_witness :
  exists t th,
    threads (run_schedule ptLog [0; 1; 0; 1; 0]%nat (init_config m0 progs)) !! t
    = Some th
    /\ th_todo th <> []
    /\ threads (sched_step ptLog t
                  (run_schedule ptLog [0; 1; 0; 1; 0]%nat (init_config m0 progs)))
         !! t <> Some th.
Proof.
  apply (X14_threads_never_deadlock m0 1%N (handle (Some console_sink))
           console_sink progs [0; 1; 0; 1; 0]%nat eq_refl eq_refl eq_refl).
  exists 1%nat, (mkThread AtAcquire 0 [call_trace]).
  split; [reflexivity | discriminate].
Defined.
